(** * Minesweeper inference engine: [Sentence] and [MinesweeperAI]

    A shallow embedding of [minesweeper.py].  Python integers are [Z],
    a cell is a pair of integers, a Python [set] of cells is a [gset],
    the [knowledge] list is a [list] of sentence values (every entry of
    that list is an object of its own, created by one [Sentence(...)] call
    and appended once, and every sentence copies its cell set on
    construction, so no two entries alias).

    What Python leaves to the runtime is collected in the class [Runtime]:
    the order in which a [set] is iterated, and the hash of the default
    [repr] of an object. *)

From stdpp Require Import gmap sets list numbers relations sorting.

Open Scope Z_scope.

#[local] Set Warnings "-clear-no-such-hyp".

(** ** Cells and outcomes *)

Abbreviation Cell := (Z * Z)%type (only parsing).

(** The one exception the engine's code can meet: [set.remove] of an
    absent element. *)
Inductive exn : Type :=
  | KeyError (c : Cell).

(** A call either returns a value or raises. *)
Inductive outcome (A : Type) : Type :=
  | Returned (a : A)
  | Raised (e : exn).
Arguments Returned {A} a.
Arguments Raised {A} e.

Definition outcome_bind {A B : Type} (f : A → outcome B) (m : outcome A) : outcome B :=
  match m with
  | Returned a => f a
  | Raised e => Raised e
  end.

#[export] Instance outcome_ret : MRet outcome := @Returned.
#[export] Instance outcome_mbind : MBind outcome := @outcome_bind.

(** A [for] loop whose body may raise: the loop stops at the first
    exception. *)
Fixpoint for_each {A S : Type} (body : S → A → outcome S) (s : S) (l : list A) : outcome S :=
  match l with
  | [] => Returned s
  | x :: l' => s' ← body s x; for_each body s' l'
  end.

(** [X.remove(c)] *)
Definition set_remove (X : gset Cell) (c : Cell) : outcome (gset Cell) :=
  if decide (c ∈ X) then Returned (X ∖ {[c]}) else Raised (KeyError c).

(** ** Sentences *)

Record Sentence : Type := mkSentence {
  cells : gset Cell;
  count : Z
}.

#[export] Instance Sentence_eq_dec : EqDecision Sentence.
Proof. solve_decision. Defined.

(** A sentence object of the resolution pass: [oid] numbers the
    [Sentence(...)] calls of the pass, so two objects of one pass have
    different [oid]s. *)
Record SentenceObj : Type := mkObj {
  oid : nat;
  sval : Sentence
}.

(** What the Python runtime decides. *)
Class Runtime : Type := mkRuntime {
  (** the order of [for x in X] for a set of cells *)
  iter_cells : gset Cell → list Cell;
  iter_cells_perm : ∀ X, iter_cells X ≡ₚ elements X;
  (** the order of [for s in new_sentences] *)
  iter_objs : list SentenceObj → list SentenceObj;
  iter_objs_perm : ∀ l, iter_objs l ≡ₚ l;
  (** [hash(repr(o))] for the object numbered [oid]: [Sentence] defines
      [__str__] but no [__repr__], so [repr] is the default one, which
      names the object and not its fields. *)
  hash_repr : nat → Z
}.

(** A runtime that iterates in the order of [elements], keeps insertion
    order for [new_sentences] and hashes every object differently. *)
Definition plain_runtime : Runtime :=
  {| iter_cells := elements;
     iter_cells_perm := λ X, reflexivity (elements X);
     iter_objs := λ l, l;
     iter_objs_perm := λ l, reflexivity l;
     hash_repr := Z.of_nat |}.

(** [Sentence.__eq__] *)
Definition Sentence_eq (s o : Sentence) : bool :=
  bool_decide (cells s = cells o) && bool_decide (count s = count o).

(** [Sentence.__hash__] *)
Definition Sentence_hash `{Runtime} (o : SentenceObj) : Z := hash_repr (oid o).

(** [S.add(o)] for a Python set [S] of sentence objects, kept as the list
    of its members: [o] is dropped when a member has the same hash and
    is the same object or [__eq__] to it. *)
Definition pyset_add `{Runtime} (S : list SentenceObj) (o : SentenceObj) : list SentenceObj :=
  if existsb (λ m, bool_decide (Sentence_hash m = Sentence_hash o)
                   && (bool_decide (oid m = oid o) || Sentence_eq (sval m) (sval o))) S
  then S else S ++ [o].

(** [Sentence.known_mines]: the returned set and the sentence after the
    call. *)
Definition known_mines (s : Sentence) : gset Cell * Sentence :=
  (if decide (count s = Z.of_nat (size (cells s))) then cells s else ∅, s).

(** [Sentence.known_safes] *)
Definition known_safes (s : Sentence) : gset Cell * Sentence :=
  (if decide (count s = 0) then cells s else ∅, s).

(** [Sentence.mark_mine] *)
Definition Sentence_mark_mine `{Runtime} (cell : Cell) (s : Sentence) : outcome Sentence :=
  let '(to_be_removed, cnt) :=
    fold_left (λ '(rem, cnt) eachCell,
                 if decide (cell = eachCell) then ({[eachCell]} ∪ rem, cnt - 1)
                 else (rem, cnt))
              (iter_cells (cells s)) ((∅ : gset Cell), count s) in
  cs ← for_each set_remove (cells s) (iter_cells to_be_removed);
  mret (mkSentence cs cnt).

(** [Sentence.mark_safe] *)
Definition Sentence_mark_safe `{Runtime} (cell : Cell) (s : Sentence) : outcome Sentence :=
  let to_be_removed :=
    fold_left (λ rem eachCell,
                 if decide (cell = eachCell) then {[eachCell]} ∪ rem else rem)
              (iter_cells (cells s)) (∅ : gset Cell) in
  cs ← for_each set_remove (cells s) (iter_cells to_be_removed);
  mret (mkSentence cs (count s)).

(** ** The knowledge base *)

Record MinesweeperAI : Type := mkAI {
  height : Z;
  width : Z;
  moves_made : gset Cell;
  mines : gset Cell;
  safes : gset Cell;
  knowledge : list Sentence
}.

(** [MinesweeperAI.__init__] *)
Definition AI_init (height width : Z) : MinesweeperAI :=
  mkAI height width ∅ ∅ ∅ [].

Definition set_moves_made (X : gset Cell) (ai : MinesweeperAI) : MinesweeperAI :=
  mkAI (height ai) (width ai) X (mines ai) (safes ai) (knowledge ai).
Definition set_mines (X : gset Cell) (ai : MinesweeperAI) : MinesweeperAI :=
  mkAI (height ai) (width ai) (moves_made ai) X (safes ai) (knowledge ai).
Definition set_safes (X : gset Cell) (ai : MinesweeperAI) : MinesweeperAI :=
  mkAI (height ai) (width ai) (moves_made ai) (mines ai) X (knowledge ai).
Definition set_knowledge (k : list Sentence) (ai : MinesweeperAI) : MinesweeperAI :=
  mkAI (height ai) (width ai) (moves_made ai) (mines ai) (safes ai) k.

(** [for sentence in self.knowledge: sentence.m(cell)], every sentence
    updated in place, in list order. *)
Fixpoint update_each (m : Sentence → outcome Sentence) (k : list Sentence) : outcome (list Sentence) :=
  match k with
  | [] => Returned []
  | s :: k' => s' ← m s; k'' ← update_each m k'; mret (s' :: k'')
  end.

(** [MinesweeperAI.mark_mine] *)
Definition mark_mine `{Runtime} (cell : Cell) (ai : MinesweeperAI) : outcome MinesweeperAI :=
  let ai := set_mines ({[cell]} ∪ mines ai) ai in
  k ← update_each (Sentence_mark_mine cell) (knowledge ai);
  mret (set_knowledge k ai).

(** [MinesweeperAI.mark_safe] *)
Definition mark_safe `{Runtime} (cell : Cell) (ai : MinesweeperAI) : outcome MinesweeperAI :=
  let ai := set_safes ({[cell]} ∪ safes ai) ai in
  k ← update_each (Sentence_mark_safe cell) (knowledge ai);
  mret (set_knowledge k ai).

(** [for element in X: S.add(element)] *)
Definition add_all `{Runtime} (X : gset Cell) (S : gset Cell) : gset Cell :=
  fold_left (λ S element, {[element]} ∪ S) (iter_cells X) S.

(** [MinesweeperAI.check]; [bool(X)] of a set is [X ≠ ∅]. *)
Definition check `{Runtime} (ai : MinesweeperAI) (checking_set : Sentence) : MinesweeperAI :=
  if bool_decide ((known_mines checking_set).1 ≠ ∅) then
    set_mines (add_all (known_mines checking_set).1 (mines ai)) ai
  else if bool_decide ((known_safes checking_set).1 ≠ ∅) then
    set_safes (add_all (known_safes checking_set).1 (safes ai)) ai
  else ai.

(** The body of the two loops over [i] and [j] that build the
    observation: the running [count] and [sentence_set]. *)
Definition observe_neighbour (ai : MinesweeperAI) (cell : Cell)
    (acc : Z * gset Cell) (ij : Cell) : Z * gset Cell :=
  let '(cnt, sentence_set) := acc in
  let '(i, j) := ij in
  if bool_decide (0 ≤ i) && bool_decide (i ≤ height ai - 1)
     && bool_decide (0 ≤ j) && bool_decide (j ≤ width ai - 1)
     && (bool_decide (i ≠ cell.1) || bool_decide (j ≠ cell.2))
  then
    if decide ((i, j) ∈ mines ai) then (cnt - 1, sentence_set)
    else if decide ((i, j) ∉ safes ai) then (cnt, {[(i, j)]} ∪ sentence_set)
    else (cnt, sentence_set)
  else (cnt, sentence_set).

Definition observation (ai : MinesweeperAI) (cell : Cell) (count : Z) : Z * gset Cell :=
  fold_left
    (λ acc i,
       fold_left (λ acc j, observe_neighbour ai cell acc (i, j))
                 [cell.2 - 1; cell.2; cell.2 + 1] acc)
    [cell.1 - 1; cell.1; cell.1 + 1] (count, ∅).

(** State of the resolution pass: the knowledge base, the set
    [new_sentences], and how many sentences the pass has created. *)
Record pass_state : Type := mkPass {
  p_ai : MinesweeperAI;
  new_sentences : list SentenceObj;
  created : nat
}.

(** The inference of one branch: [new_cells] is a copy of the larger
    cell set with the cells of the smaller one removed one by one. *)
Definition infer `{Runtime} (small big : Sentence) (st : pass_state) : outcome pass_state :=
  new_cells ← for_each set_remove (cells big) (iter_cells (cells small));
  let new_count := count big - count small in
  mret (mkPass (p_ai st)
               (pyset_add (new_sentences st)
                          (mkObj (created st) (mkSentence new_cells new_count)))
               (S (created st))).

Definition check_pair `{Runtime} (sentence_1 sentence_2 : Sentence) (st : pass_state) : pass_state :=
  mkPass (check (check (p_ai st) sentence_1) sentence_2) (new_sentences st) (created st).

(** The body of the double loop over [self.knowledge]. *)
Definition resolve_pair `{Runtime} (st : pass_state) (sentence_1 sentence_2 : Sentence) : outcome pass_state :=
  if decide (cells sentence_1 ≠ cells sentence_2) then
    if decide (cells sentence_1 ⊆ cells sentence_2) then
      st' ← infer sentence_1 sentence_2 st;
      mret (check_pair sentence_1 sentence_2 st')
    else if decide (cells sentence_2 ⊆ cells sentence_1) then
      st' ← infer sentence_2 sentence_1 st;
      mret (check_pair sentence_1 sentence_2 st')
    else mret st
  else mret st.

Definition resolution_pass `{Runtime} (ai : MinesweeperAI) : outcome pass_state :=
  for_each
    (λ st sentence_1,
       for_each (λ st sentence_2, resolve_pair st sentence_1 sentence_2)
                st (knowledge ai))
    (mkPass ai [] 0) (knowledge ai).

(** [for eachSentence in new_sentences: append, check] *)
Definition append_new `{Runtime} (ai : MinesweeperAI) (news : list SentenceObj) : MinesweeperAI :=
  fold_left
    (λ ai eachSentence,
       check (set_knowledge (knowledge ai ++ [sval eachSentence]) ai) (sval eachSentence))
    news ai.

(** The state of [add_knowledge] when the observation has been built
    and appended and checked, before the resolution pass. *)
Definition add_observation `{Runtime} (cell : Cell) (count : Z) (ai : MinesweeperAI) : outcome MinesweeperAI :=
  let ai := set_moves_made ({[cell]} ∪ moves_made ai) ai in
  ai ← mark_safe cell ai;
  let '(cnt, sentence_set) := observation ai cell count in
  let my_sentence := mkSentence sentence_set cnt in
  let ai := set_knowledge (knowledge ai ++ [my_sentence]) ai in
  mret (check ai my_sentence).

(** [MinesweeperAI.add_knowledge] *)
Definition add_knowledge `{Runtime} (cell : Cell) (count : Z) (ai : MinesweeperAI) : outcome MinesweeperAI :=
  ai ← add_observation cell count ai;
  st ← resolution_pass ai;
  mret (append_new (p_ai st) (iter_objs (new_sentences st))).

(** [MinesweeperAI.make_safe_move]: the returned cell ([None] when the
    loop ends without a [return]) and the knowledge base after the call. *)
Definition make_safe_move `{Runtime} (ai : MinesweeperAI) : option Cell * MinesweeperAI :=
  (List.find (λ c, bool_decide (c ∉ moves_made ai)) (iter_cells (safes ai)), ai).

(** [range(n)] *)
Definition range (n : Z) : list Z := seqZ 0 n.

(** [MinesweeperAI.make_random_move]: the first cell, row by row, that
    passes both tests. *)
Definition make_random_move (ai : MinesweeperAI) : option Cell * MinesweeperAI :=
  (List.find (λ c, bool_decide (c ∉ moves_made ai) && bool_decide (c ∉ mines ai))
             (i ← range (height ai); j ← range (width ai); [(i, j)]),
   ai).

(** ** Calls and traces *)

(** The public operations of the knowledge base. *)
Inductive call : Type :=
  | CallMarkMine (cell : Cell)
  | CallMarkSafe (cell : Cell)
  | CallAddKnowledge (cell : Cell) (count : Z)
  | CallMakeSafeMove
  | CallMakeRandomMove.

Definition run_call `{Runtime} (c : call) (ai : MinesweeperAI) : outcome MinesweeperAI :=
  match c with
  | CallMarkMine cell => mark_mine cell ai
  | CallMarkSafe cell => mark_safe cell ai
  | CallAddKnowledge cell count => add_knowledge cell count ai
  | CallMakeSafeMove => mret (make_safe_move ai).2
  | CallMakeRandomMove => mret (make_random_move ai).2
  end.

(** A sequence of calls, each with the runtime choices made during it. *)
Definition run_calls (tr : list (Runtime * call)) (ai : MinesweeperAI) : outcome MinesweeperAI :=
  for_each (λ ai rc, @run_call rc.1 rc.2 ai) ai tr.

(** ** Notions the statements use *)

(** The nine cells of the square around [cell]. *)
Definition square (cell : Cell) : list Cell :=
  i ← [cell.1 - 1; cell.1; cell.1 + 1];
  j ← [cell.2 - 1; cell.2; cell.2 + 1];
  [(i, j)].

(** The neighbours of [cell] on a board of [h] rows and [w] columns. *)
Definition neighbours (h w : Z) (cell : Cell) : gset Cell :=
  list_to_set
    (filter (λ c, (0 ≤ c.1 < h) ∧ (0 ≤ c.2 < w) ∧ c ≠ cell) (square cell)).

(** A sentence is true of a board whose mines are [M] when exactly
    [count] of its cells are mines. *)
Definition sentence_true (M : gset Cell) (s : Sentence) : Prop :=
  count s = Z.of_nat (size (cells s ∩ M)).

(** A call agrees with the board whose mines are [M]: [mark_mine] names a
    mine, [mark_safe] a cell without one, and [add_knowledge] reports a
    cell without a mine together with the number of mines around it. *)
Definition agrees (M : gset Cell) (h w : Z) (c : call) : Prop :=
  match c with
  | CallMarkMine cell => cell ∈ M
  | CallMarkSafe cell => cell ∉ M
  | CallAddKnowledge cell count =>
      (cell ∉ M) ∧ count = Z.of_nat (size (neighbours h w cell ∩ M))
  | CallMakeSafeMove | CallMakeRandomMove => True
  end.

(** The knowledge base holds nothing false about the board. *)
Definition sound (M : gset Cell) (ai : MinesweeperAI) : Prop :=
  mines ai ⊆ M ∧ safes ai ## M ∧ Forall (sentence_true M) (knowledge ai).

(** ** What the operations return when nothing is raised

    The proofs below show that nothing ever is; these are the values
    the loops then compute. *)

Definition forget_mine (cell : Cell) (s : Sentence) : Sentence :=
  if decide (cell ∈ cells s) then mkSentence (cells s ∖ {[cell]}) (count s - 1) else s.

Definition forget_safe (cell : Cell) (s : Sentence) : Sentence :=
  if decide (cell ∈ cells s) then mkSentence (cells s ∖ {[cell]}) (count s) else s.

Definition inferred (small big : Sentence) : Sentence :=
  mkSentence (cells big ∖ cells small) (count big - count small).

Definition record_new `{Runtime} (s : Sentence) (st : pass_state) : pass_state :=
  mkPass (p_ai st) (pyset_add (new_sentences st) (mkObj (created st) s)) (S (created st)).

Definition resolved `{Runtime} (st : pass_state) (sentence_1 sentence_2 : Sentence) : pass_state :=
  if decide (cells sentence_1 ≠ cells sentence_2) then
    if decide (cells sentence_1 ⊆ cells sentence_2) then
      check_pair sentence_1 sentence_2 (record_new (inferred sentence_1 sentence_2) st)
    else if decide (cells sentence_2 ⊆ cells sentence_1) then
      check_pair sentence_1 sentence_2 (record_new (inferred sentence_2 sentence_1) st)
    else st
  else st.

Definition passed `{Runtime} (ai : MinesweeperAI) : pass_state :=
  fold_left
    (λ st sentence_1,
       fold_left (λ st sentence_2, resolved st sentence_1 sentence_2) (knowledge ai) st)
    (knowledge ai) (mkPass ai [] 0).

(** The sentence that [add_knowledge] builds from its arguments. *)
Definition my_sentence (cell : Cell) (count : Z) (ai : MinesweeperAI) : Sentence :=
  mkSentence (neighbours (height ai) (width ai) cell ∖ (mines ai ∪ safes ai))
             (count - Z.of_nat (size (neighbours (height ai) (width ai) cell ∩ mines ai))).

Definition observed `{Runtime} (cell : Cell) (count : Z) (ai : MinesweeperAI) : MinesweeperAI :=
  check
    (mkAI (height ai) (width ai) ({[cell]} ∪ moves_made ai) (mines ai)
          ({[cell]} ∪ safes ai)
          (map (forget_safe cell) (knowledge ai) ++ [my_sentence cell count ai]))
    (my_sentence cell count ai).

Definition added `{Runtime} (cell : Cell) (count : Z) (ai : MinesweeperAI) : MinesweeperAI :=
  let st := passed (observed cell count ai) in
  append_new (p_ai st) (iter_objs (new_sentences st)).

(** What the resolution pass keeps of the knowledge base [ai] it started
    from: it only adds to [mines] and [safes], and the objects it has
    collected were all created before the next one. *)
Definition pass_frame (ai : MinesweeperAI) (st : pass_state) : Prop :=
  height (p_ai st) = height ai ∧ width (p_ai st) = width ai
  ∧ moves_made (p_ai st) = moves_made ai
  ∧ knowledge (p_ai st) = knowledge ai
  ∧ mines ai ⊆ mines (p_ai st) ∧ safes ai ⊆ safes (p_ai st)
  ∧ Forall (λ o, (oid o < created st)%nat) (new_sentences st).

(** A cell of a board of [h] rows and [w] columns. *)
Definition on_board (h w : Z) (c : Cell) : Prop :=
  (0 ≤ c.1 < h) ∧ (0 ≤ c.2 < w).

(** ** The game board *)

Record Minesweeper : Type := mkGame {
  g_height : Z;
  g_width : Z;
  g_mines : gset Cell;
  board : list (list bool);
  mines_found : gset Cell
}.

(** [l[i]] for a Python list: a negative index counts from the end, and
    an index outside the list is an [IndexError], here [None]. *)
Definition list_get {A : Type} (l : list A) (i : Z) : option A :=
  if decide (0 ≤ i) then l !! Z.to_nat i
  else if decide (- Z.of_nat (length l) ≤ i) then l !! Z.to_nat (Z.of_nat (length l) + i)
  else None.

(** [l[i] = x] *)
Definition list_set {A : Type} (l : list A) (i : Z) (x : A) : option (list A) :=
  if decide (0 ≤ i) then
    if decide (i < Z.of_nat (length l)) then Some (<[Z.to_nat i := x]> l) else None
  else if decide (- Z.of_nat (length l) ≤ i) then
    Some (<[Z.to_nat (Z.of_nat (length l) + i) := x]> l)
  else None.

(** [range(a, b)] *)
Definition range_from (a b : Z) : list Z := seqZ a (b - a).

(** A [for] loop whose body may fail. *)
Fixpoint for_each_opt {A S : Type} (body : S → A → option S) (s : S) (l : list A) : option S :=
  match l with
  | [] => Some s
  | x :: l' => s' ← body s x; for_each_opt body s' l'
  end.

(** The board of [Minesweeper.__init__] before the mines are placed. *)
Definition empty_board (height width : Z) : list (list bool) :=
  (λ _ : Z, (λ _ : Z, false) <$> range width) <$> range height.

(** How a call that draws random numbers can end. *)
Inductive ending (A : Type) : Type :=
  | Ended (a : A)
  | ValueError
  | IndexError
  | OutOfDraws.
Arguments Ended {A} a.
Arguments ValueError {A}.
Arguments IndexError {A}.
Arguments OutOfDraws {A}.

(** The body of the loop that places the mines, once [randrange] has
    returned [i] and [j]: [self.mines] and [self.board] after it, or
    [None] for an [IndexError]. *)
Definition place_mine (ms : gset Cell) (bd : list (list bool)) (ij : Cell) :
    option (gset Cell * list (list bool)) :=
  row ← list_get bd ij.1;
  b ← list_get row ij.2;
  if b : bool then Some (ms, bd)
  else
    row' ← list_set row ij.2 true;
    bd' ← list_set bd ij.1 row';
    Some ({[ij]} ∪ ms, bd').

(** The loop [while len(self.mines) != mines].  Each round asks
    [randrange(height)] and [randrange(width)], which raise [ValueError]
    on an empty range, for a pair; [draws] lists the pairs they return.
    When the list is used up and the loop has not ended, the model stops
    with [OutOfDraws]: the constructor has not returned. *)
Fixpoint place_mines (height width mines : Z) (draws : list Cell)
    (ms : gset Cell) (bd : list (list bool)) : ending (gset Cell * list (list bool)) :=
  if decide (Z.of_nat (size ms) = mines) then Ended (ms, bd)
  else if decide (height ≤ 0) then ValueError
  else if decide (width ≤ 0) then ValueError
  else match draws with
       | [] => OutOfDraws
       | ij :: draws' =>
           match place_mine ms bd ij with
           | None => IndexError
           | Some (ms', bd') => place_mines height width mines draws' ms' bd'
           end
       end.

(** [Minesweeper.__init__]: [mines_found] is set once the loop has ended. *)
Definition Minesweeper_init (height width mines : Z) (draws : list Cell) : ending Minesweeper :=
  match place_mines height width mines draws ∅ (empty_board height width) with
  | Ended (ms, bd) => Ended (mkGame height width ms bd ∅)
  | ValueError => ValueError
  | IndexError => IndexError
  | OutOfDraws => OutOfDraws
  end.

(** [Minesweeper.is_mine] *)
Definition is_mine (g : Minesweeper) (cell : Cell) : option bool :=
  row ← list_get (board g) cell.1; list_get row cell.2.

(** The body of the two loops of [nearby_mines]. *)
Definition count_neighbour (g : Minesweeper) (cell : Cell) (count : Z) (ij : Cell) : option Z :=
  if decide (ij = cell) then Some count
  else if bool_decide (0 ≤ ij.1 < g_height g) && bool_decide (0 ≤ ij.2 < g_width g) then
    row ← list_get (board g) ij.1;
    b ← list_get row ij.2;
    Some (if b : bool then count + 1 else count)
  else Some count.

(** [Minesweeper.nearby_mines] *)
Definition nearby_mines (g : Minesweeper) (cell : Cell) : option Z :=
  for_each_opt
    (λ count i,
       for_each_opt (λ count j, count_neighbour g cell count (i, j)) count
                    (range_from (cell.2 - 1) (cell.2 + 2)))
    0 (range_from (cell.1 - 1) (cell.1 + 2)).

(** [Minesweeper.won] *)
Definition won (g : Minesweeper) : bool := bool_decide (mines_found g = g_mines g).

(** A board of the right size whose [True] entries are the cells of
    [self.mines]. *)
Definition board_ok (g : Minesweeper) : Prop :=
  length (board g) = Z.to_nat (g_height g)
  ∧ Forall (λ row, length row = Z.to_nat (g_width g)) (board g)
  ∧ ∀ c, on_board (g_height g) (g_width g) c →
         ∃ b, is_mine g c = Some b ∧ (b = true ↔ c ∈ g_mines g).

(** * Proofs *)

(** ** Loops and sets *)

Lemma bind_Returned {A B : Type} (f : A → outcome B) (a : A) :
  (Returned a ≫= f) = f a.
Proof. reflexivity. Qed.

Lemma for_each_app {A S : Type} (body : S → A → outcome S) (s : S) (l1 l2 : list A) :
  for_each body s (l1 ++ l2) = (for_each body s l1 ≫= λ s', for_each body s' l2).
Proof.
  revert s. induction l1 as [|x l1 IH]; intros s; simpl; [done|].
  destruct (body s x) as [s'|e]; simpl; [apply IH | done].
Qed.

(** A loop whose body never raises and keeps an invariant returns a
    state that satisfies it. *)
Lemma for_each_invariant {A S : Type} (I : S → Prop) (body : S → A → outcome S) (l : list A) :
  (∀ s x, x ∈ l → I s → ∃ s', body s x = Returned s' ∧ I s') →
  ∀ s, I s → ∃ s', for_each body s l = Returned s' ∧ I s'.
Proof.
  induction l as [|x l IH]; intros Hbody s Hs; simpl.
  - by exists s.
  - destruct (Hbody s x) as (s1 & -> & Hs1); [left | done |].
    simpl. apply IH; [|done].
    intros s2 y Hy. apply Hbody. by right.
Qed.

Lemma for_each_ext {A S : Type} (body1 body2 : S → A → outcome S) (s : S) (l : list A) :
  (∀ s x, body1 s x = body2 s x) → for_each body1 s l = for_each body2 s l.
Proof.
  intros Hext. revert s. induction l as [|x l IH]; intros s; simpl; [done|].
  rewrite Hext. destruct (body2 s x); simpl; [apply IH | done].
Qed.

Lemma for_each_pure {A S : Type} (f : S → A → S) (s : S) (l : list A) :
  for_each (λ s x, Returned (f s x)) s l = Returned (fold_left f l s).
Proof. revert s. induction l as [|x l IH]; intros s; simpl; [done | apply IH]. Qed.

Section runtime_facts.
Context `{Runtime}.

Lemma elem_of_iter_cells (X : gset Cell) (c : Cell) : c ∈ iter_cells X ↔ c ∈ X.
Proof. by rewrite (iter_cells_perm X), elem_of_elements. Qed.

Lemma NoDup_iter_cells (X : gset Cell) : NoDup (iter_cells X).
Proof. rewrite (iter_cells_perm X). apply NoDup_elements. Qed.

Lemma iter_cells_empty : iter_cells ∅ = [].
Proof.
  apply Permutation_nil_r. by rewrite (iter_cells_perm ∅), elements_empty.
Qed.

Lemma iter_cells_singleton (c : Cell) : iter_cells {[c]} = [c].
Proof.
  apply Permutation_singleton_r. by rewrite (iter_cells_perm {[c]}), elements_singleton.
Qed.

Lemma list_to_set_iter_cells (X : gset Cell) : list_to_set (iter_cells X) = X.
Proof.
  apply set_eq. intros c. by rewrite elem_of_list_to_set, elem_of_iter_cells.
Qed.
End runtime_facts.

Lemma set_remove_elem (X : gset Cell) (c : Cell) :
  c ∈ X → set_remove X c = Returned (X ∖ {[c]}).
Proof. intros Hc. unfold set_remove. by rewrite decide_True. Qed.

(** Removing the cells of a list, none of them twice and all of them
    present, never raises and leaves the difference. *)
Lemma for_each_set_remove (l : list Cell) (X : gset Cell) :
  NoDup l → (∀ c, c ∈ l → c ∈ X) →
  for_each set_remove X l = Returned (X ∖ list_to_set l).
Proof.
  revert X. induction l as [|c l IH]; intros X Hnd Hin; simpl.
  - f_equal. set_solver.
  - apply NoDup_cons in Hnd as [Hc Hnd].
    rewrite set_remove_elem by (apply Hin; left).
    simpl. rewrite IH; [f_equal; set_solver | done |].
    intros c' Hc'. apply elem_of_difference. split; [apply Hin; by right|].
    intros ->%elem_of_singleton. done.
Qed.

Lemma remove_subset `{Runtime} (X Y : gset Cell) :
  Y ⊆ X → for_each set_remove X (iter_cells Y) = Returned (X ∖ Y).
Proof.
  intros HYX. rewrite for_each_set_remove.
  - by rewrite list_to_set_iter_cells.
  - apply NoDup_iter_cells.
  - intros c Hc. apply HYX. by apply elem_of_iter_cells.
Qed.

Lemma add_all_union `{Runtime} (X S : gset Cell) : add_all X S = X ∪ S.
Proof.
  unfold add_all. rewrite <- (list_to_set_iter_cells X) at 2.
  generalize (iter_cells X). intros l. revert S.
  induction l as [|c l IH]; intros S; simpl; [set_solver|].
  rewrite IH. set_solver.
Qed.

(** ** Sentences *)

(** The first loop of [Sentence.mark_mine] over a list without
    repetition: the cell is collected, and counted, once if it occurs. *)
Lemma mark_mine_scan (cell : Cell) (l : list Cell) (rem : gset Cell) (cnt : Z) :
  NoDup l →
  fold_left (λ '(rem, cnt) eachCell,
               if decide (cell = eachCell) then ({[eachCell]} ∪ rem, cnt - 1)
               else (rem, cnt)) l (rem, cnt)
  = if decide (cell ∈ l) then ({[cell]} ∪ rem, cnt - 1) else (rem, cnt).
Proof.
  revert rem cnt. induction l as [|c l IH]; intros rem cnt Hnd; cbn [fold_left].
  - rewrite decide_False; [done | apply not_elem_of_nil].
  - apply NoDup_cons in Hnd as [Hc Hnd].
    destruct (decide (cell = c)) as [<-|Hne]; rewrite IH by done.
    + rewrite decide_False by done. rewrite decide_True; [done | left].
    + destruct (decide (cell ∈ l)) as [Hl|Hl].
      * rewrite decide_True; [done | by right].
      * rewrite decide_False; [done|].
        intros [?|?]%elem_of_cons; done.
Qed.

Lemma mark_safe_scan (cell : Cell) (l : list Cell) (rem : gset Cell) :
  fold_left (λ rem eachCell,
               if decide (cell = eachCell) then {[eachCell]} ∪ rem else rem) l rem
  = if decide (cell ∈ l) then {[cell]} ∪ rem else rem.
Proof.
  revert rem. induction l as [|c l IH]; intros rem; cbn [fold_left].
  - rewrite decide_False; [done | apply not_elem_of_nil].
  - rewrite IH. destruct (decide (cell = c)) as [<-|Hne].
    + rewrite (decide_True (P := cell ∈ cell :: l)) by left.
      destruct (decide (cell ∈ l)); [set_solver | done].
    + destruct (decide (cell ∈ l)) as [Hl|Hl].
      * rewrite decide_True; [done | by right].
      * rewrite decide_False; [done|].
        intros [?|?]%elem_of_cons; done.
Qed.

Section sentence_facts.
Context `{Runtime}.

Lemma Sentence_mark_mine_eq (cell : Cell) (s : Sentence) :
  Sentence_mark_mine cell s =
  Returned (if decide (cell ∈ cells s)
            then mkSentence (cells s ∖ {[cell]}) (count s - 1) else s).
Proof.
  unfold Sentence_mark_mine.
  rewrite mark_mine_scan by apply NoDup_iter_cells.
  destruct (decide (cell ∈ iter_cells (cells s))) as [Hin|Hin];
    rewrite elem_of_iter_cells in Hin.
  - rewrite decide_True by done.
    rewrite remove_subset by set_solver. simpl.
    do 2 f_equal. set_solver.
  - rewrite decide_False by done.
    rewrite remove_subset by set_solver. simpl.
    f_equal. destruct s as [cs n]. simpl. f_equal. set_solver.
Qed.

Lemma Sentence_mark_safe_eq (cell : Cell) (s : Sentence) :
  Sentence_mark_safe cell s =
  Returned (if decide (cell ∈ cells s)
            then mkSentence (cells s ∖ {[cell]}) (count s) else s).
Proof.
  unfold Sentence_mark_safe. rewrite mark_safe_scan.
  destruct (decide (cell ∈ iter_cells (cells s))) as [Hin|Hin];
    rewrite elem_of_iter_cells in Hin.
  - rewrite decide_True by done.
    rewrite remove_subset by set_solver. simpl.
    do 2 f_equal. set_solver.
  - rewrite decide_False by done.
    rewrite remove_subset by set_solver. simpl.
    f_equal. destruct s as [cs n]. simpl. f_equal. set_solver.
Qed.
End sentence_facts.

(** ** The knowledge base *)

Lemma update_each_map (m : Sentence → outcome Sentence) (f : Sentence → Sentence) (k : list Sentence) :
  (∀ s, m s = Returned (f s)) → update_each m k = Returned (map f k).
Proof.
  intros Hm. induction k as [|s k IH]; simpl; [done|].
  by rewrite Hm, IH.
Qed.

Lemma square_eq (cell : Cell) :
  square cell =
  [(cell.1 - 1, cell.2 - 1); (cell.1 - 1, cell.2); (cell.1 - 1, cell.2 + 1);
   (cell.1, cell.2 - 1); (cell.1, cell.2); (cell.1, cell.2 + 1);
   (cell.1 + 1, cell.2 - 1); (cell.1 + 1, cell.2); (cell.1 + 1, cell.2 + 1)].
Proof. reflexivity. Qed.

Lemma NoDup_square (cell : Cell) : NoDup (square cell).
Proof.
  rewrite square_eq.
  repeat (apply NoDup_cons; split;
          [rewrite ?elem_of_cons, elem_of_nil; intros Hin;
           repeat (destruct Hin as [Hin|Hin]; [injection Hin; lia|]); done|]).
  apply NoDup_nil_2.
Qed.

Lemma elem_of_square (cell c : Cell) :
  c ∈ square cell ↔ (cell.1 - 1 ≤ c.1 ≤ cell.1 + 1) ∧ (cell.2 - 1 ≤ c.2 ≤ cell.2 + 1).
Proof.
  rewrite square_eq. destruct c as [i j], cell as [ci cj]. simpl.
  rewrite !elem_of_cons, elem_of_nil. split.
  - intros Hin. repeat (destruct Hin as [Hin|Hin]; [injection Hin; lia|]). done.
  - intros [Hi Hj].
    assert (i = ci - 1 ∨ i = ci ∨ i = ci + 1) as Hi' by lia.
    assert (j = cj - 1 ∨ j = cj ∨ j = cj + 1) as Hj' by lia.
    destruct Hi' as [-> | [-> | ->]], Hj' as [-> | [-> | ->]]; tauto.
Qed.

(** The neighbours are the cells at most one row and one column away,
    on the board, other than the cell. *)
Lemma elem_of_neighbours (h w : Z) (cell c : Cell) :
  c ∈ neighbours h w cell ↔
  (cell.1 - 1 ≤ c.1 ≤ cell.1 + 1) ∧ (cell.2 - 1 ≤ c.2 ≤ cell.2 + 1)
  ∧ (0 ≤ c.1 < h) ∧ (0 ≤ c.2 < w) ∧ c ≠ cell.
Proof.
  unfold neighbours. rewrite elem_of_list_to_set, list_elem_of_filter, elem_of_square.
  tauto.
Qed.

Lemma observe_neighbour_eq (ai : MinesweeperAI) (cell c : Cell) (cnt : Z) (S : gset Cell) :
  observe_neighbour ai cell (cnt, S) c =
  if decide ((0 ≤ c.1 < height ai) ∧ (0 ≤ c.2 < width ai) ∧ c ≠ cell) then
    if decide (c ∈ mines ai) then (cnt - 1, S)
    else if decide (c ∉ safes ai) then (cnt, {[c]} ∪ S)
    else (cnt, S)
  else (cnt, S).
Proof.
  unfold observe_neighbour. destruct c as [i j], cell as [ci cj]. simpl.
  match goal with
  | |- _ = (if ?d then _ else _) => destruct d as [(Hi & Hj & Hne)|Hno]
  end.
  - rewrite !bool_decide_eq_true_2 by lia. simpl.
    destruct (decide (i = ci)) as [->|Hi'].
    + rewrite (bool_decide_eq_true_2 (j ≠ cj)) by congruence.
      by rewrite orb_true_r.
    + by rewrite (bool_decide_eq_true_2 (i ≠ ci)) by done.
  - repeat case_bool_decide; simpl; try done.
    all: exfalso; apply Hno; repeat split; try lia; congruence.
Qed.

Lemma size_inter_insert_in (c : Cell) (T X : gset Cell) :
  c ∉ T → c ∈ X → size (({[c]} ∪ T) ∩ X) = S (size (T ∩ X)).
Proof.
  intros HT HX.
  assert (({[c]} ∪ T) ∩ X = {[c]} ∪ (T ∩ X)) as -> by set_solver.
  rewrite size_union by set_solver. by rewrite size_singleton.
Qed.

Lemma inter_insert_out (c : Cell) (T X : gset Cell) :
  c ∉ X → ({[c]} ∪ T) ∩ X = T ∩ X.
Proof. set_solver. Qed.

(** The two loops of [add_knowledge] over a list of cells without
    repetition. *)
Lemma observe_scan (ai : MinesweeperAI) (cell : Cell) (l : list Cell) :
  NoDup l → ∀ (cnt : Z) (S : gset Cell),
  let N : gset Cell :=
    list_to_set (filter (λ c, (0 ≤ c.1 < height ai) ∧ (0 ≤ c.2 < width ai) ∧ c ≠ cell) l) in
  fold_left (observe_neighbour ai cell) l (cnt, S) =
  (cnt - Z.of_nat (size (N ∩ mines ai)), S ∪ (N ∖ (mines ai ∪ safes ai))).
Proof.
  induction 1 as [|c l Hc Hnd IH]; intros cnt S; cbn [fold_left].
  - simpl. f_equal.
    + replace ((∅ : gset Cell) ∩ mines ai) with (∅ : gset Cell) by set_solver.
      rewrite size_empty. lia.
    + set_solver.
  - rewrite observe_neighbour_eq, filter_cons.
    set (ok := λ c : Cell, (0 ≤ c.1 < height ai) ∧ (0 ≤ c.2 < width ai) ∧ c ≠ cell) in *.
    change (decide ((0 ≤ c.1 < height ai) ∧ (0 ≤ c.2 < width ai) ∧ c ≠ cell))
      with (decide (ok c)).
    destruct (decide (ok c)) as [Hok|Hok]; [|apply IH].
    assert (c ∉ (list_to_set (filter ok l) : gset Cell)) as Hfresh.
    { rewrite elem_of_list_to_set, list_elem_of_filter. tauto. }
    destruct (decide (c ∈ mines ai)) as [Hm|Hm].
    + rewrite IH, list_to_set_cons, size_inter_insert_in by done. f_equal.
      * lia.
      * set_solver.
    + destruct (decide (c ∉ safes ai)) as [Hs|Hs];
        rewrite IH, list_to_set_cons, inter_insert_out by done; f_equal; set_solver.
Qed.

Lemma observation_eq (ai : MinesweeperAI) (cell : Cell) (n : Z) :
  observation ai cell n =
  (n - Z.of_nat (size (neighbours (height ai) (width ai) cell ∩ mines ai)),
   neighbours (height ai) (width ai) cell ∖ (mines ai ∪ safes ai)).
Proof.
  change (observation ai cell n)
    with (fold_left (observe_neighbour ai cell) (square cell) (n, ∅)).
  rewrite (observe_scan ai cell (square cell) (NoDup_square cell)).
  unfold neighbours. f_equal. set_solver.
Qed.

Section engine_facts.
Context `{Runtime}.

Lemma check_eq (ai : MinesweeperAI) (s : Sentence) :
  check ai s =
  if decide (count s = Z.of_nat (size (cells s)) ∧ cells s ≠ ∅) then
    set_mines (cells s ∪ mines ai) ai
  else if decide (count s = 0 ∧ cells s ≠ ∅) then
    set_safes (cells s ∪ safes ai) ai
  else ai.
Proof.
  unfold check, known_mines, known_safes. cbn [fst]. rewrite !add_all_union.
  destruct (decide (count s = Z.of_nat (size (cells s)))) as [Hm|Hm].
  - destruct (decide (cells s = ∅)) as [He|He].
    + rewrite bool_decide_eq_false_2 by tauto.
      rewrite (decide_False (P := _ ∧ cells s ≠ ∅)) by tauto.
      rewrite (decide_False (P := _ ∧ cells s ≠ ∅)) by tauto.
      destruct (decide (count s = 0)).
      * by rewrite bool_decide_eq_false_2 by tauto.
      * by rewrite bool_decide_eq_false_2 by tauto.
    + rewrite bool_decide_eq_true_2 by done.
      by rewrite decide_True by done.
  - rewrite bool_decide_eq_false_2 by tauto.
    rewrite (decide_False (P := count s = Z.of_nat _ ∧ _)) by tauto.
    destruct (decide (count s = 0)) as [Hz|Hz].
    + destruct (decide (cells s = ∅)) as [He|He].
      * rewrite bool_decide_eq_false_2 by tauto.
        by rewrite decide_False by tauto.
      * rewrite bool_decide_eq_true_2 by done.
        by rewrite decide_True by done.
    + rewrite bool_decide_eq_false_2 by tauto.
      by rewrite decide_False by tauto.
Qed.

(** [check] touches [mines] and [safes] only, and only adds to them. *)
Lemma check_frame (ai : MinesweeperAI) (s : Sentence) :
  height (check ai s) = height ai ∧ width (check ai s) = width ai
  ∧ moves_made (check ai s) = moves_made ai
  ∧ knowledge (check ai s) = knowledge ai
  ∧ mines ai ⊆ mines (check ai s) ∧ safes ai ⊆ safes (check ai s).
Proof.
  rewrite check_eq. repeat case_decide; simpl; repeat split; set_solver.
Qed.

Lemma mark_mine_eq (cell : Cell) (ai : MinesweeperAI) :
  mark_mine cell ai =
  Returned (mkAI (height ai) (width ai) (moves_made ai) ({[cell]} ∪ mines ai)
                 (safes ai) (map (forget_mine cell) (knowledge ai))).
Proof.
  unfold mark_mine. cbn [set_mines knowledge].
  by rewrite (update_each_map _ _ _ (Sentence_mark_mine_eq cell)).
Qed.

Lemma mark_safe_eq (cell : Cell) (ai : MinesweeperAI) :
  mark_safe cell ai =
  Returned (mkAI (height ai) (width ai) (moves_made ai) (mines ai)
                 ({[cell]} ∪ safes ai) (map (forget_safe cell) (knowledge ai))).
Proof.
  unfold mark_safe. cbn [set_safes knowledge].
  by rewrite (update_each_map _ _ _ (Sentence_mark_safe_eq cell)).
Qed.

Lemma neighbours_not_self (h w : Z) (cell : Cell) : cell ∉ neighbours h w cell.
Proof. rewrite elem_of_neighbours. tauto. Qed.

Lemma add_observation_eq (cell : Cell) (n : Z) (ai : MinesweeperAI) :
  add_observation cell n ai = Returned (observed cell n ai).
Proof.
  unfold add_observation. rewrite mark_safe_eq. cbn [mbind outcome_mbind outcome_bind].
  rewrite observation_eq. cbn [height width mines safes set_moves_made moves_made knowledge set_knowledge mret outcome_ret].
  unfold observed, my_sentence. pose proof (neighbours_not_self (height ai) (width ai) cell).
  assert (neighbours (height ai) (width ai) cell ∖ (mines ai ∪ ({[cell]} ∪ safes ai))
          = neighbours (height ai) (width ai) cell ∖ (mines ai ∪ safes ai)) as ->
    by set_solver.
  reflexivity.
Qed.

Lemma infer_eq (small big : Sentence) (st : pass_state) :
  cells small ⊆ cells big →
  infer small big st = Returned (record_new (inferred small big) st).
Proof. intros Hsub. unfold infer. by rewrite remove_subset. Qed.

Lemma resolve_pair_eq (st : pass_state) (s1 s2 : Sentence) :
  resolve_pair st s1 s2 = Returned (resolved st s1 s2).
Proof.
  unfold resolve_pair, resolved. repeat case_decide; try done.
  all: by rewrite infer_eq.
Qed.

Lemma resolution_pass_eq (ai : MinesweeperAI) :
  resolution_pass ai = Returned (passed ai).
Proof.
  unfold resolution_pass, passed.
  rewrite <- for_each_pure. apply for_each_ext. intros st s1.
  rewrite <- for_each_pure. apply for_each_ext. intros st' s2.
  apply resolve_pair_eq.
Qed.

Lemma add_knowledge_eq (cell : Cell) (n : Z) (ai : MinesweeperAI) :
  add_knowledge cell n ai = Returned (added cell n ai).
Proof.
  unfold add_knowledge. rewrite add_observation_eq. cbn [mbind outcome_mbind outcome_bind].
  by rewrite resolution_pass_eq.
Qed.
End engine_facts.

(** ** True sentences stay true *)

Section soundness_of_sentences.
Context (M : gset Cell).

Lemma forget_mine_true (cell : Cell) (s : Sentence) :
  cell ∈ M → sentence_true M s → sentence_true M (forget_mine cell s).
Proof.
  unfold sentence_true, forget_mine. intros HM Hs.
  destruct (decide (cell ∈ cells s)) as [Hin|Hin]; [|done]. simpl.
  assert ((cells s ∖ {[cell]}) ∩ M = (cells s ∩ M) ∖ {[cell]}) as -> by set_solver.
  rewrite size_difference by set_solver. rewrite size_singleton, Hs.
  assert (0 < size (cells s ∩ M))%nat; [|lia].
  apply Nat.neq_0_lt_0. rewrite size_non_empty_iff. set_solver.
Qed.

Lemma forget_safe_true (cell : Cell) (s : Sentence) :
  cell ∉ M → sentence_true M s → sentence_true M (forget_safe cell s).
Proof.
  unfold sentence_true, forget_safe. intros HM Hs.
  destruct (decide (cell ∈ cells s)) as [Hin|Hin]; [|done]. simpl.
  assert ((cells s ∖ {[cell]}) ∩ M = cells s ∩ M) as -> by set_solver.
  done.
Qed.

Lemma inferred_true (small big : Sentence) :
  cells small ⊆ cells big →
  sentence_true M small → sentence_true M big → sentence_true M (inferred small big).
Proof.
  unfold sentence_true, inferred. intros Hsub Hs Hb. simpl.
  assert ((cells big ∖ cells small) ∩ M = (cells big ∩ M) ∖ (cells small ∩ M)) as ->
    by set_solver.
  rewrite (size_difference (cells big ∩ M) (cells small ∩ M)) by set_solver.
  assert (size (cells small ∩ M) ≤ size (cells big ∩ M))%nat
    by (apply subseteq_size; set_solver).
  lia.
Qed.

(** A true sentence with as many mines as cells has only mines, one
    with no mine has none. *)
Lemma all_mines (s : Sentence) :
  sentence_true M s → count s = Z.of_nat (size (cells s)) → cells s ⊆ M.
Proof.
  unfold sentence_true. intros Hs Hall.
  assert (cells s ∩ M = cells s) as Heq; [|set_solver].
  apply set_subseteq_size_eq; [set_solver | lia].
Qed.

Lemma no_mines (s : Sentence) :
  sentence_true M s → count s = 0 → cells s ## M.
Proof.
  unfold sentence_true. intros Hs Hnone.
  assert (size (cells s ∩ M) = 0)%nat as Hz%size_empty_inv by lia.
  set_solver.
Qed.

Lemma my_sentence_true (cell : Cell) (ai : MinesweeperAI) :
  mines ai ⊆ M → safes ai ## M →
  sentence_true M
    (my_sentence cell (Z.of_nat (size (neighbours (height ai) (width ai) cell ∩ M))) ai).
Proof.
  unfold sentence_true, my_sentence. intros Hm Hs. simpl.
  set (N := neighbours (height ai) (width ai) cell).
  assert ((N ∖ (mines ai ∪ safes ai)) ∩ M = (N ∩ M) ∖ (N ∩ mines ai)) as ->
    by set_solver.
  rewrite (size_difference (N ∩ M) (N ∩ mines ai)) by set_solver.
  assert (size (N ∩ mines ai) ≤ size (N ∩ M))%nat
    by (apply subseteq_size; set_solver).
  lia.
Qed.

Lemma check_sound `{Runtime} (ai : MinesweeperAI) (s : Sentence) :
  sentence_true M s → sound M ai → sound M (check ai s).
Proof.
  intros Hs (Hm & Hsf & Hk). rewrite check_eq.
  destruct (decide (count s = Z.of_nat (size (cells s)) ∧ cells s ≠ ∅)) as [[Hall _]|_].
  - pose proof (all_mines s Hs Hall). repeat split; simpl; [set_solver | done | done].
  - destruct (decide (count s = 0 ∧ cells s ≠ ∅)) as [[Hnone _]|_]; [|done].
    pose proof (no_mines s Hs Hnone). repeat split; simpl; [done | set_solver | done].
Qed.
End soundness_of_sentences.

(** ** The resolution pass *)

Lemma fold_left_invariant {A S : Type} (I : S → Prop) (f : S → A → S) (l : list A) :
  (∀ s x, x ∈ l → I s → I (f s x)) → ∀ s, I s → I (fold_left f l s).
Proof.
  induction l as [|x l IH]; intros Hf s Hs; simpl; [done|].
  apply IH.
  - intros s' y Hy. apply Hf. by right.
  - apply Hf; [left | done].
Qed.

(** What the body establishes at one element of the list, and every
    later iteration keeps, holds when the loop ends. *)
Lemma fold_left_reaches {A S : Type} (I Q : S → Prop) (f : S → A → S) (l : list A) (x : A) :
  x ∈ l →
  (∀ s y, y ∈ l → I s → I (f s y)) →
  (∀ s, I s → Q (f s x)) →
  (∀ s y, y ∈ l → I s → Q s → Q (f s y)) →
  ∀ s, I s → Q (fold_left f l s).
Proof.
  induction l as [|y l IH]; intros Hx HI Hat Hkeep s Hs.
  - by apply elem_of_nil in Hx.
  - simpl. apply elem_of_cons in Hx as [<-|Hx].
    + apply (fold_left_invariant (λ s, I s ∧ Q s)).
      * intros s' z Hz [? ?]. split; [apply HI | apply Hkeep]; try done; by right.
      * split; [apply HI; [left | done] | by apply Hat].
    + apply IH; try done.
      * intros s' z Hz. apply HI. by right.
      * intros s' z Hz. apply Hkeep. by right.
      * apply HI; [left | done].
Qed.

Lemma Sentence_eq_true (s o : Sentence) :
  Sentence_eq s o = true ↔ cells s = cells o ∧ count s = count o.
Proof.
  unfold Sentence_eq. by rewrite andb_true_iff, !bool_decide_eq_true.
Qed.

Lemma Sentence_eq_same (s o : Sentence) : Sentence_eq s o = true → s = o.
Proof.
  rewrite Sentence_eq_true. destruct s, o. simpl. by intros [-> ->].
Qed.

Section pass_facts.
Context `{Runtime}.

Lemma elem_of_pyset_add (S : list SentenceObj) (o o' : SentenceObj) :
  o' ∈ pyset_add S o → o' ∈ S ∨ o' = o.
Proof.
  unfold pyset_add. destruct (existsb _ S); [by left|].
  rewrite elem_of_app, list_elem_of_singleton. tauto.
Qed.

Lemma pyset_add_keeps (S : list SentenceObj) (o o' : SentenceObj) :
  o' ∈ S → o' ∈ pyset_add S o.
Proof.
  unfold pyset_add. destruct (existsb _ S); [done|].
  intros ?. apply elem_of_app. by left.
Qed.

(** After [S.add(o)] the set holds an object with the value of [o]. *)
Lemma pyset_add_value (S : list SentenceObj) (o : SentenceObj) :
  Forall (λ m, (oid m < oid o)%nat) S →
  sval o ∈ map sval (pyset_add S o).
Proof.
  intros Hold. unfold pyset_add.
  destruct (existsb _ S) eqn:Hex.
  - apply existsb_exists in Hex as (m & Hm & Hsame).
    apply list_elem_of_In in Hm.
    apply andb_true_iff in Hsame as [_ Hsame].
    apply orb_true_iff in Hsame as [Hid|Heq].
    + apply bool_decide_eq_true in Hid.
      rewrite Forall_forall in Hold. specialize (Hold m Hm). lia.
    + apply Sentence_eq_same in Heq. rewrite <- Heq.
      apply list_elem_of_fmap. by exists m.
  - rewrite map_app. apply elem_of_app. right. simpl. left.
Qed.

Lemma record_new_frame (ai : MinesweeperAI) (s : Sentence) (st : pass_state) :
  pass_frame ai st → pass_frame ai (record_new s st).
Proof.
  unfold pass_frame, record_new. simpl.
  intros (? & ? & ? & ? & ? & ? & Hold). repeat split; try done.
  apply Forall_forall. intros o [Ho| ->]%elem_of_pyset_add; simpl; [|lia].
  rewrite Forall_forall in Hold. specialize (Hold o Ho). lia.
Qed.

Lemma check_pair_frame (ai : MinesweeperAI) (s1 s2 : Sentence) (st : pass_state) :
  pass_frame ai st → pass_frame ai (check_pair s1 s2 st).
Proof.
  unfold pass_frame, check_pair. simpl.
  intros (? & ? & ? & ? & ? & ? & Hold).
  destruct (check_frame (p_ai st) s1) as (? & ? & ? & ? & ? & ?).
  destruct (check_frame (check (p_ai st) s1) s2) as (? & ? & ? & ? & ? & ?).
  repeat split; try congruence; try done; set_solver.
Qed.

Lemma resolved_frame (ai : MinesweeperAI) (st : pass_state) (s1 s2 : Sentence) :
  pass_frame ai st → pass_frame ai (resolved st s1 s2).
Proof.
  intros Hst. unfold resolved. repeat case_decide; try done.
  all: by apply check_pair_frame, record_new_frame.
Qed.

Lemma passed_frame (ai : MinesweeperAI) : pass_frame ai (passed ai).
Proof.
  unfold passed. apply fold_left_invariant.
  - intros st s1 _ Hst. apply fold_left_invariant; [|done].
    intros st' s2 _. apply resolved_frame.
  - unfold pass_frame. simpl. repeat split; done.
Qed.

Lemma resolved_keeps (v : Sentence) (st : pass_state) (s1 s2 : Sentence) :
  v ∈ map sval (new_sentences st) → v ∈ map sval (new_sentences (resolved st s1 s2)).
Proof.
  intros (o & -> & Ho)%list_elem_of_fmap. apply list_elem_of_fmap. exists o.
  split; [done|]. unfold resolved, check_pair, record_new.
  repeat case_decide; simpl; try done; by apply pyset_add_keeps.
Qed.

(** Two sentences of the knowledge base, the cells of one properly
    inside the cells of the other: the pass collects their difference. *)
Lemma passed_infers (ai : MinesweeperAI) (s1 s2 : Sentence) :
  s1 ∈ knowledge ai → s2 ∈ knowledge ai →
  cells s1 ≠ cells s2 → cells s1 ⊆ cells s2 →
  inferred s1 s2 ∈ map sval (new_sentences (passed ai)).
Proof.
  intros H1 H2 Hne Hsub. unfold passed.
  set (Q := λ st : pass_state, inferred s1 s2 ∈ map sval (new_sentences st)).
  apply (fold_left_reaches (pass_frame ai) Q _ _ s1 H1).
  - intros st s _ Hst. apply fold_left_invariant; [|done].
    intros st' s' _. apply resolved_frame.
  - intros st Hst.
    apply (fold_left_reaches (pass_frame ai) Q _ _ s2 H2); [| | |done].
    + intros st' s' _. apply resolved_frame.
    + intros st' Hst'. unfold resolved.
      rewrite decide_True by done. rewrite decide_True by done.
      unfold Q, check_pair, record_new. simpl.
      apply (pyset_add_value _ (mkObj (created st') (inferred s1 s2))).
      by destruct Hst' as (_ & _ & _ & _ & _ & _ & ?).
    + intros st' s' _ _. apply resolved_keeps.
  - intros st s _ _ Hv.
    apply (fold_left_invariant Q); [|done].
    intros st' s' _. apply resolved_keeps.
  - unfold pass_frame. simpl. repeat split; done.
Qed.
End pass_facts.

Section pass_soundness.
Context `{Runtime} (M : gset Cell).

Lemma record_new_true (s : Sentence) (st : pass_state) :
  sentence_true M s →
  Forall (sentence_true M) (map sval (new_sentences st)) →
  Forall (sentence_true M) (map sval (new_sentences (record_new s st))).
Proof.
  intros Hs Hst. rewrite Forall_forall in Hst. apply Forall_forall.
  intros v (o & -> & Ho)%list_elem_of_fmap. unfold record_new in Ho. simpl in Ho.
  apply elem_of_pyset_add in Ho as [Ho| ->]; [|done].
  apply Hst, list_elem_of_fmap. by exists o.
Qed.

Lemma resolved_sound (st : pass_state) (s1 s2 : Sentence) :
  sentence_true M s1 → sentence_true M s2 →
  sound M (p_ai st) ∧ Forall (sentence_true M) (map sval (new_sentences st)) →
  sound M (p_ai (resolved st s1 s2))
  ∧ Forall (sentence_true M) (map sval (new_sentences (resolved st s1 s2))).
Proof.
  intros H1 H2 [Hai Hnew]. unfold resolved.
  repeat case_decide; try done.
  all: split; [by apply check_sound, check_sound|].
  all: apply record_new_true; [by apply inferred_true | done].
Qed.

Lemma passed_sound (ai : MinesweeperAI) :
  sound M ai →
  sound M (p_ai (passed ai))
  ∧ Forall (sentence_true M) (map sval (new_sentences (passed ai))).
Proof.
  intros Hai. pose proof Hai as (_ & _ & Hk). rewrite Forall_forall in Hk.
  unfold passed.
  apply (fold_left_invariant
           (λ st, sound M (p_ai st)
                  ∧ Forall (sentence_true M) (map sval (new_sentences st)))).
  - intros st s1 H1 Hst.
    apply (fold_left_invariant
             (λ st, sound M (p_ai st)
                    ∧ Forall (sentence_true M) (map sval (new_sentences st))));
      [|done].
    intros st' s2 H2. apply resolved_sound; by apply Hk.
  - simpl. split; [done | apply Forall_nil_2].
Qed.

Lemma append_new_sound (news : list SentenceObj) (ai : MinesweeperAI) :
  Forall (sentence_true M) (map sval news) → sound M ai →
  sound M (append_new ai news).
Proof.
  revert ai. induction news as [|o news IH]; intros ai Hnews Hai; simpl; [done|].
  apply Forall_cons in Hnews as [Ho Hnews].
  apply IH; [done|]. apply check_sound; [done|].
  destruct Hai as (? & ? & Hk). repeat split; simpl; try done.
  apply Forall_app. split; [done|]. by apply Forall_singleton.
Qed.
End pass_soundness.

Section append_facts.
Context `{Runtime}.

(** The last loop appends every collected sentence and only adds to
    [mines] and [safes]. *)
Lemma append_new_frame (news : list SentenceObj) (ai : MinesweeperAI) :
  height (append_new ai news) = height ai ∧ width (append_new ai news) = width ai
  ∧ moves_made (append_new ai news) = moves_made ai
  ∧ knowledge (append_new ai news) = knowledge ai ++ map sval news
  ∧ mines ai ⊆ mines (append_new ai news) ∧ safes ai ⊆ safes (append_new ai news).
Proof.
  revert ai. induction news as [|o news IH]; intros ai; simpl.
  - rewrite app_nil_r. repeat split; done.
  - destruct (IH (check (set_knowledge (knowledge ai ++ [sval o]) ai) (sval o)))
      as (Hh & Hw & Hmv & Hk & Hm & Hs).
    destruct (check_frame (set_knowledge (knowledge ai ++ [sval o]) ai) (sval o))
      as (Hh' & Hw' & Hmv' & Hk' & Hm' & Hs').
    simpl in *. rewrite Hh, Hw, Hmv, Hk, Hh', Hw', Hmv', Hk'.
    rewrite <- app_assoc. simpl. repeat split; try done; set_solver.
Qed.

(** A collected sentence with as many mines as cells: its cells are
    in [mines] in the end. *)
Lemma append_new_known_mines (news : list SentenceObj) (ai : MinesweeperAI) (s : Sentence) :
  s ∈ map sval news → count s = Z.of_nat (size (cells s)) →
  cells s ⊆ mines (append_new ai news).
Proof.
  revert ai. induction news as [|o news IH]; intros ai Hs Hall; simpl in *.
  - by apply elem_of_nil in Hs.
  - apply elem_of_cons in Hs as [->|Hs]; [|by apply IH].
    destruct (append_new_frame news
                (check (set_knowledge (knowledge ai ++ [sval o]) ai) (sval o)))
      as (_ & _ & _ & _ & Hm & _).
    etrans; [|apply Hm]. rewrite check_eq.
    destruct (decide (cells (sval o) = ∅)) as [->|Hne]; [set_solver|].
    rewrite decide_True by done. simpl. set_solver.
Qed.
End append_facts.

(** ** Calls *)

Section call_facts.
Context `{Runtime}.

Lemma observed_frame (cell : Cell) (n : Z) (ai : MinesweeperAI) :
  height (observed cell n ai) = height ai ∧ width (observed cell n ai) = width ai
  ∧ moves_made (observed cell n ai) = {[cell]} ∪ moves_made ai
  ∧ knowledge (observed cell n ai)
    = map (forget_safe cell) (knowledge ai) ++ [my_sentence cell n ai]
  ∧ mines ai ⊆ mines (observed cell n ai)
  ∧ {[cell]} ∪ safes ai ⊆ safes (observed cell n ai).
Proof.
  unfold observed.
  match goal with
  | |- context [check ?a ?s] =>
      destruct (check_frame a s) as (Hh & Hw & Hmv & Hk & Hm & Hs)
  end.
  rewrite Hh, Hw, Hmv, Hk. simpl in *. repeat split; done.
Qed.

(** What [add_knowledge] leaves: the old sentences without [cell],
    then the observation, then the sentences the pass collected. *)
Lemma added_frame (cell : Cell) (n : Z) (ai : MinesweeperAI) :
  height (added cell n ai) = height ai ∧ width (added cell n ai) = width ai
  ∧ moves_made (added cell n ai) = {[cell]} ∪ moves_made ai
  ∧ knowledge (added cell n ai)
    = map (forget_safe cell) (knowledge ai) ++ [my_sentence cell n ai]
      ++ map sval (iter_objs (new_sentences (passed (observed cell n ai))))
  ∧ mines ai ⊆ mines (added cell n ai)
  ∧ {[cell]} ∪ safes ai ⊆ safes (added cell n ai).
Proof.
  unfold added. cbv zeta.
  destruct (observed_frame cell n ai) as (Hh & Hw & Hmv & Hk & Hm & Hs).
  destruct (passed_frame (observed cell n ai))
    as (Hh' & Hw' & Hmv' & Hk' & Hm' & Hs' & _).
  destruct (append_new_frame (iter_objs (new_sentences (passed (observed cell n ai))))
              (p_ai (passed (observed cell n ai))))
    as (Hh'' & Hw'' & Hmv'' & Hk'' & Hm'' & Hs'').
  rewrite Hh'', Hw'', Hmv'', Hk'', Hh', Hw', Hmv', Hk', Hh, Hw, Hmv, Hk.
  rewrite <- app_assoc. repeat split; try done; set_solver.
Qed.

Lemma run_call_eq (c : call) (ai : MinesweeperAI) :
  run_call c ai =
  Returned match c with
           | CallMarkMine cell =>
               mkAI (height ai) (width ai) (moves_made ai) ({[cell]} ∪ mines ai)
                    (safes ai) (map (forget_mine cell) (knowledge ai))
           | CallMarkSafe cell =>
               mkAI (height ai) (width ai) (moves_made ai) (mines ai)
                    ({[cell]} ∪ safes ai) (map (forget_safe cell) (knowledge ai))
           | CallAddKnowledge cell n => added cell n ai
           | CallMakeSafeMove | CallMakeRandomMove => ai
           end.
Proof.
  destruct c; simpl; [apply mark_mine_eq | apply mark_safe_eq
                      | apply add_knowledge_eq | done | done].
Qed.

(** Every call returns, keeps the size of the board, and only adds to
    [mines] and [safes]. *)
Lemma run_call_grows (c : call) (ai : MinesweeperAI) :
  ∃ ai', run_call c ai = Returned ai'
         ∧ height ai' = height ai ∧ width ai' = width ai
         ∧ mines ai ⊆ mines ai' ∧ safes ai ⊆ safes ai'.
Proof.
  rewrite run_call_eq. eexists. split; [done|].
  destruct c as [cell|cell|cell n| |]; simpl; try (repeat split; set_solver).
  destruct (added_frame cell n ai) as (Hh & Hw & _ & _ & Hm & Hs).
  repeat split; try done; set_solver.
Qed.

Lemma run_call_sound (M : gset Cell) (c : call) (ai : MinesweeperAI) :
  agrees M (height ai) (width ai) c → sound M ai →
  ∃ ai', run_call c ai = Returned ai' ∧ sound M ai'.
Proof.
  intros Hc Hai. rewrite run_call_eq. eexists. split; [done|].
  pose proof Hai as (Hm & Hs & Hk).
  destruct c as [cell|cell|cell n| |]; simpl in *; try done.
  - repeat split; simpl; [set_solver | done |].
    rewrite Forall_forall in Hk. apply Forall_forall.
    intros s' (s & -> & Hin)%list_elem_of_fmap. apply forget_mine_true; auto.
  - repeat split; simpl; [done | set_solver |].
    rewrite Forall_forall in Hk. apply Forall_forall.
    intros s' (s & -> & Hin)%list_elem_of_fmap. apply forget_safe_true; auto.
  - destruct Hc as [Hcell ->]. unfold added. cbv zeta.
    assert (sound M (observed cell
              (Z.of_nat (size (neighbours (height ai) (width ai) cell ∩ M))) ai))
      as Hobs.
    { unfold observed. apply check_sound; [by apply my_sentence_true|].
      repeat split; simpl; [done | set_solver |].
      apply Forall_app. split.
      - rewrite Forall_forall in Hk. apply Forall_forall.
        intros s' (s & -> & Hin)%list_elem_of_fmap. apply forget_safe_true; auto.
      - apply Forall_singleton. by apply my_sentence_true. }
    destruct (passed_sound M _ Hobs) as [Hp Hnew].
    apply append_new_sound; [|done].
    rewrite Forall_forall in Hnew. apply Forall_forall.
    intros v (o & -> & Ho)%list_elem_of_fmap. apply Hnew, list_elem_of_fmap.
    exists o. split; [done|]. by rewrite (iter_objs_perm _) in Ho.
Qed.
End call_facts.

Lemma run_calls_cons (rc : Runtime * call) (tr : list (Runtime * call)) (ai : MinesweeperAI) :
  run_calls (rc :: tr) ai = (@run_call rc.1 rc.2 ai ≫= run_calls tr).
Proof. reflexivity. Qed.

Lemma run_calls_app (tr1 tr2 : list (Runtime * call)) (ai : MinesweeperAI) :
  run_calls (tr1 ++ tr2) ai = (run_calls tr1 ai ≫= run_calls tr2).
Proof. apply for_each_app. Qed.

Lemma run_calls_grow (tr : list (Runtime * call)) (ai : MinesweeperAI) :
  ∃ ai', run_calls tr ai = Returned ai'
         ∧ height ai' = height ai ∧ width ai' = width ai
         ∧ mines ai ⊆ mines ai' ∧ safes ai ⊆ safes ai'.
Proof.
  revert ai. induction tr as [|[R c] tr IH]; intros ai.
  - exists ai. by repeat split.
  - destruct (@run_call_grows R c ai) as (ai1 & Hrun & Hh & Hw & Hm & Hs).
    destruct (IH ai1) as (ai2 & Hrun' & Hh' & Hw' & Hm' & Hs').
    exists ai2. rewrite run_calls_cons. simpl. rewrite Hrun. simpl.
    repeat split; try congruence; try done; set_solver.
Qed.

Lemma run_calls_sound (M : gset Cell) (tr : list (Runtime * call)) (ai : MinesweeperAI) :
  Forall (λ rc, agrees M (height ai) (width ai) rc.2) tr → sound M ai →
  ∃ ai', run_calls tr ai = Returned ai' ∧ sound M ai'.
Proof.
  revert ai. induction tr as [|[R c] tr IH]; intros ai Htr Hai.
  - by exists ai.
  - apply Forall_cons in Htr as [Hc Htr]. simpl in Hc.
    destruct (@run_call_sound R M c ai Hc Hai) as (ai1 & Hrun & Hai1).
    destruct (@run_call_grows R c ai) as (ai1' & Hrun' & Hh & Hw & _).
    assert (ai1' = ai1) as -> by congruence.
    destruct (IH ai1) as (ai2 & Hrun2 & Hai2); [by rewrite Hh, Hw | done |].
    exists ai2. rewrite run_calls_cons. simpl. rewrite Hrun. done.
Qed.

(** ** Resolution through [add_knowledge] *)

Lemma forget_safe_cells (cell : Cell) (s : Sentence) :
  cells (forget_safe cell s) = cells s ∖ {[cell]} ∧ count (forget_safe cell s) = count s.
Proof.
  unfold forget_safe. destruct (decide (cell ∈ cells s)); simpl; [done|].
  split; [set_solver | done].
Qed.

Lemma forget_mine_cells (cell : Cell) (s : Sentence) :
  cells (forget_mine cell s) = cells s ∖ {[cell]}.
Proof.
  unfold forget_mine. destruct (decide (cell ∈ cells s)); simpl; [done|]. set_solver.
Qed.

Lemma forget_empty (cell : Cell) (s : Sentence) :
  cells s = ∅ → forget_mine cell s = s ∧ forget_safe cell s = s.
Proof.
  intros He. unfold forget_mine, forget_safe.
  rewrite !decide_False by (rewrite He; set_solver). done.
Qed.

Lemma inferred_forget_safe (cell : Cell) (A B : Sentence) :
  cell ∉ cells B ∖ cells A →
  inferred (forget_safe cell A) (forget_safe cell B) = inferred A B.
Proof.
  intros Hc. unfold inferred.
  destruct (forget_safe_cells cell A) as [-> ->].
  destruct (forget_safe_cells cell B) as [-> ->].
  f_equal. apply set_eq. intros x.
  destruct (decide (x = cell)) as [->|]; set_solver.
Qed.

Section resolution_facts.
Context `{Runtime}.

(** Two sentences of the knowledge base, the cells of [A] properly
    inside those of [B], and a probed cell that is not one of the
    cells of [B] outside [A]: [add_knowledge] appends their difference,
    and when that difference has as many mines as cells, its cells are
    in [mines]. *)
Lemma added_infers (cell : Cell) (n : Z) (ai : MinesweeperAI) (A B : Sentence) :
  A ∈ knowledge ai → B ∈ knowledge ai →
  cells A ⊆ cells B → cells A ≠ cells B → cell ∉ cells B ∖ cells A →
  inferred A B ∈ map sval (iter_objs (new_sentences (passed (observed cell n ai))))
  ∧ (count B - count A = Z.of_nat (size (cells B ∖ cells A)) →
     cells B ∖ cells A ⊆ mines (added cell n ai)).
Proof.
  intros HA HB Hsub Hne Hc.
  destruct (observed_frame cell n ai) as (_ & _ & _ & Hk & _ & _).
  assert (inferred A B ∈ map sval (new_sentences (passed (observed cell n ai))))
    as Hin.
  { rewrite <- (inferred_forget_safe cell A B Hc). apply passed_infers.
    - rewrite Hk. apply elem_of_app. left. apply list_elem_of_fmap. by exists A.
    - rewrite Hk. apply elem_of_app. left. apply list_elem_of_fmap. by exists B.
    - destruct (forget_safe_cells cell A) as [-> _].
      destruct (forget_safe_cells cell B) as [-> _].
      intros Heq. apply Hne. apply set_eq. intros x.
      assert (x ∈ cells A ∖ {[cell]} ↔ x ∈ cells B ∖ {[cell]}) as Hx
        by (by rewrite Heq).
      clear Heq Hne HA HB Hk.
      destruct (decide (x = cell)) as [->|]; [|set_solver].
      destruct (decide (cell ∈ cells A)); set_solver.
    - destruct (forget_safe_cells cell A) as [-> _].
      destruct (forget_safe_cells cell B) as [-> _]. set_solver. }
  assert (inferred A B
          ∈ map sval (iter_objs (new_sentences (passed (observed cell n ai)))))
    as Hin' by (by rewrite (iter_objs_perm _)).
  split; [done|]. intros Hall. unfold added. cbv zeta.
  apply (append_new_known_mines _ _ (inferred A B)); done.
Qed.
End resolution_facts.

(** * The claims *)

(** C6. [known_mines] returns exactly the cells of the sentence when its
    count equals the number of its cells, and the empty set otherwise;
    [known_safes] returns exactly the cells when the count is 0, and the
    empty set otherwise; neither call changes the sentence. *)
Theorem known_mines_known_safes_spec (s : Sentence) :
  (known_mines s).1 = (if decide (count s = Z.of_nat (size (cells s))) then cells s else ∅)
  ∧ (known_safes s).1 = (if decide (count s = 0) then cells s else ∅)
  ∧ (known_mines s).2 = s
  ∧ (known_safes s).2 = s.
Proof. unfold known_mines, known_safes. simpl. repeat split. Qed.

(** C7. For a cell of the sentence, [mark_mine] removes it and takes 1
    from the count, and [mark_safe] removes it and keeps the count; for
    any other cell both calls return the sentence as it was.  Both calls
    return (no [KeyError] escapes), and all they compute is the new
    sentence. *)
Theorem Sentence_mark_spec `{Runtime} (c : Cell) (s : Sentence) :
  Sentence_mark_mine c s =
    Returned (if decide (c ∈ cells s)
              then mkSentence (cells s ∖ {[c]}) (count s - 1) else s)
  ∧ Sentence_mark_safe c s =
    Returned (if decide (c ∈ cells s)
              then mkSentence (cells s ∖ {[c]}) (count s) else s).
Proof. split; [apply Sentence_mark_mine_eq | apply Sentence_mark_safe_eq]. Qed.

(** C8. [add_knowledge(cell, count)] returns, and the sentence it appends
    to [knowledge] (the entry just after the sentences that were there)
    has for cells the neighbours of [cell] on the board that are then in
    neither [mines] nor [safes] (which holds [cell] by then), and for
    count the given count minus the number of neighbours in [mines].  The
    neighbours are the cells at most one row and one column away from
    [cell], inside the board, [cell] itself left out. *)
Theorem add_knowledge_observation `{Runtime} (cell : Cell) (n : Z) (ai : MinesweeperAI) :
  let N := neighbours (height ai) (width ai) cell in
  (∀ c, c ∈ N ↔
        (cell.1 - 1 ≤ c.1 ≤ cell.1 + 1) ∧ (cell.2 - 1 ≤ c.2 ≤ cell.2 + 1)
        ∧ (0 ≤ c.1 < height ai) ∧ (0 ≤ c.2 < width ai) ∧ c ≠ cell)
  ∧ ∃ ai',
      add_knowledge cell n ai = Returned ai'
      ∧ knowledge ai' !! length (knowledge ai)
        = Some (mkSentence (N ∖ (mines ai ∪ ({[cell]} ∪ safes ai)))
                           (n - Z.of_nat (size (N ∩ mines ai)))).
Proof.
  intros N. split; [intros c; apply elem_of_neighbours|].
  exists (added cell n ai). split; [apply add_knowledge_eq|].
  destruct (added_frame cell n ai) as (_ & _ & _ & -> & _ & _).
  rewrite lookup_app_r by (rewrite length_map; lia).
  rewrite length_map, Nat.sub_diag. simpl. f_equal. unfold my_sentence. f_equal.
  pose proof (neighbours_not_self (height ai) (width ai) cell). set_solver.
Qed.

(** C9. [make_safe_move] returns a cell of [safes] that is not in
    [moves_made] when there is one, and [None] when there is none; the
    knowledge base after the call is the one before it. *)
Theorem make_safe_move_spec `{Runtime} (ai : MinesweeperAI) :
  (make_safe_move ai).2 = ai
  ∧ match (make_safe_move ai).1 with
    | Some c => c ∈ safes ai ∧ c ∉ moves_made ai
    | None => ¬ ∃ c, c ∈ safes ai ∧ c ∉ moves_made ai
    end.
Proof.
  split; [done|]. unfold make_safe_move. cbn [fst].
  destruct (List.find _ _) as [c|] eqn:Hfind.
  - apply find_some in Hfind as [Hin Hc].
    apply list_elem_of_In, elem_of_iter_cells in Hin.
    by apply bool_decide_eq_true in Hc.
  - intros (c & Hin & Hc).
    assert (bool_decide (c ∉ moves_made ai) = false) as Hno.
    { apply (find_none _ _ Hfind c). by apply list_elem_of_In, elem_of_iter_cells. }
    by apply bool_decide_eq_false in Hno.
Qed.

(** C4, as stated, fails: on the sentence [{(0,0)} = 0], [mark_mine] of
    [(0,0)] returns normally and the sentence it leaves has count [-1]. *)
Lemma mark_mine_stores_negative_count :
  @Sentence_mark_mine plain_runtime (0, 0) (mkSentence {[(0, 0)]} 0)
  = Returned (mkSentence ∅ (-1)).
Proof. reflexivity. Qed.

(** C4, amended. [Sentence.mark_mine] of a cell of a sentence whose count
    is 0 returns normally: nothing is raised, the cell is removed, and the
    count stored is [-1], not clamped. *)
Theorem Sentence_mark_mine_zero_count `{Runtime} (c : Cell) (s : Sentence) :
  c ∈ cells s → count s = 0 →
  Sentence_mark_mine c s = Returned (mkSentence (cells s ∖ {[c]}) (-1)).
Proof.
  intros Hc Hz. rewrite Sentence_mark_mine_eq, decide_True by done.
  by rewrite Hz.
Qed.

Lemma Sentence_mark_mine_zero_count_witness :
  @Sentence_mark_mine plain_runtime (0, 0) (mkSentence {[(0, 0)]} 0)
  = Returned (mkSentence ({[(0, 0)]} ∖ {[(0, 0)]}) (-1)).
Proof.
  refine (@Sentence_mark_mine_zero_count plain_runtime (0, 0) (mkSentence {[(0, 0)]} 0) _ _).
  - simpl. apply elem_of_singleton. reflexivity.
  - reflexivity.
Defined.

(** C2: where the code departs from the claim.  On a board of one row and
    two columns, after [add_knowledge((0,0), 1)] the cell [(0,1)] is in
    [mines] and still in the sentence that [knowledge] holds. *)
Theorem check_leaves_known_cell_in_sentence :
  ∃ ai s,
    run_calls [(plain_runtime, CallAddKnowledge (0, 0) 1)] (AI_init 1 2) = Returned ai
    ∧ knowledge ai = [s]
    ∧ (0, 1) ∈ cells s ∧ (0, 1) ∈ mines ai.
Proof.
  exists (mkAI 1 2 {[(0, 0)]} {[(0, 1)]} {[(0, 0)]} [mkSentence {[(0, 1)]} 1]),
         (mkSentence {[(0, 1)]} 1).
  split; [reflexivity|]. split; [reflexivity|].
  split; simpl; by apply elem_of_singleton.
Qed.

(** C3: where the code departs from the claim.  [Sentence.__eq__] is
    equality of cells and count; but on a board of three rows and three
    columns, after [add_knowledge((0,0), 1)] and [add_knowledge((0,1), 1)],
    with two objects that hash differently, the second call has appended
    the inferred sentence [{(0,2), (1,2)} = 0] twice. *)
Theorem inferred_sentences_not_deduplicated :
  (∀ s o, Sentence_eq s o = true ↔ cells s = cells o ∧ count s = count o)
  ∧ ∃ ai old,
      run_calls [(plain_runtime, CallAddKnowledge (0, 0) 1);
                 (plain_runtime, CallAddKnowledge (0, 1) 1)] (AI_init 3 3)
      = Returned ai
      ∧ length old = 2%nat
      ∧ knowledge ai
        = old ++ [mkSentence {[(0, 2); (1, 2)]} 0; mkSentence {[(0, 2); (1, 2)]} 0].
Proof.
  split; [apply Sentence_eq_true|].
  eexists _, [mkSentence {[(1, 0); (1, 1)]} 1;
              mkSentence {[(0, 2); (1, 0); (1, 1); (1, 2)]} 1].
  split; [reflexivity|]. split; [reflexivity|].
  vm_compute. reflexivity.
Qed.

(** C1, as stated, fails: after [mark_mine((0,0))] and [mark_safe((0,0))]
    the cell is in [mines] and in [safes]. *)
Lemma mark_mine_then_mark_safe_overlap :
  ∃ ai,
    run_calls [(plain_runtime, CallMarkMine (0, 0));
               (plain_runtime, CallMarkSafe (0, 0))] (AI_init 8 8) = Returned ai
    ∧ (0, 0) ∈ mines ai ∧ (0, 0) ∈ safes ai.
Proof.
  exists (mkAI 8 8 ∅ {[(0, 0)]} {[(0, 0)]} []).
  split; [reflexivity|].
  split; simpl; by apply elem_of_singleton.
Qed.

(** C1, amended.  Every sequence of calls returns, and from any state
    reached from construction on, the rest of the sequence only adds to
    [mines] and to [safes].  When every call of the sequence agrees with
    one board (its mines are [M]: [mark_mine] is called on mines only,
    [mark_safe] on other cells only, and [add_knowledge] with a cell that
    holds no mine and the number of mines around it), [mines] holds mines
    only and [safes] none, so the two sets are disjoint. *)
Theorem mines_and_safes_grow_and_agree (h w : Z) (tr1 tr2 : list (Runtime * call)) :
  ∃ ai1 ai2,
    run_calls tr1 (AI_init h w) = Returned ai1
    ∧ run_calls tr2 ai1 = Returned ai2
    ∧ mines ai1 ⊆ mines ai2 ∧ safes ai1 ⊆ safes ai2
    ∧ ∀ M, Forall (λ rc, agrees M h w rc.2) (tr1 ++ tr2) →
           mines ai2 ⊆ M ∧ safes ai2 ## M ∧ mines ai2 ## safes ai2.
Proof.
  destruct (run_calls_grow tr1 (AI_init h w)) as (ai1 & Hrun1 & _).
  destruct (run_calls_grow tr2 ai1) as (ai2 & Hrun2 & _ & _ & Hm & Hs).
  exists ai1, ai2. repeat split; try done.
  all: destruct (run_calls_sound M (tr1 ++ tr2) (AI_init h w)) as (ai & Hrun & Hai);
    [done | repeat split; simpl; [set_solver | set_solver | done] |].
  all: rewrite run_calls_app, Hrun1 in Hrun; simpl in Hrun.
  all: assert (ai = ai2) as -> by congruence.
  all: destruct Hai as (? & ? & _); set_solver.
Qed.

Lemma mines_and_safes_grow_and_agree_witness :
  ∃ ai,
    run_calls [(plain_runtime, CallAddKnowledge (0, 0) 1)] (AI_init 1 2) = Returned ai
    ∧ mines ai ## safes ai.
Proof.
  destruct (mines_and_safes_grow_and_agree 1 2
              [(plain_runtime, CallAddKnowledge (0, 0) 1)] [])
    as (ai1 & ai2 & Hrun1 & Hrun2 & _ & _ & Hboard).
  exists ai2. simpl in Hrun2. injection Hrun2 as <-.
  split; [exact Hrun1|].
  apply (Hboard {[(0, 1)]}).
  apply Forall_cons. split; [|apply Forall_nil_2].
  simpl. split; [by vm_compute | by vm_compute].
Defined.

(** [A] and [B] of the example, and a probed cell other than [(0,2)]. *)
Lemma resolution_example_other_cell `{Runtime} (cell : Cell) (n : Z) (ai : MinesweeperAI) :
  mkSentence {[(0, 0); (0, 1)]} 1 ∈ knowledge ai →
  mkSentence {[(0, 0); (0, 1); (0, 2)]} 2 ∈ knowledge ai →
  cell ≠ (0, 2) →
  ∃ ai',
    add_knowledge cell n ai = Returned ai'
    ∧ (mkSentence {[(0, 2)]} 1 ∈ knowledge ai')
    ∧ ((0, 2) ∈ mines ai').
Proof.
  intros HA HB Hcell. exists (added cell n ai). split; [apply add_knowledge_eq|].
  set (A := mkSentence {[(0, 0); (0, 1)]} 1) in *.
  set (B := mkSentence {[(0, 0); (0, 1); (0, 2)]} 2) in *.
  assert (inferred A B = mkSentence {[(0, 2)]} 1) as Hinf.
  { reflexivity. }
  destruct (added_infers cell n ai A B HA HB) as [Hin Hmines].
  - unfold A, B. simpl. set_solver.
  - unfold A, B. simpl. intros Heq.
    assert ((0, 2) ∈ ({[(0, 0); (0, 1)]} : gset Cell)) as Hin by (rewrite Heq; set_solver).
    set_solver.
  - unfold A, B. simpl. set_solver.
  - rewrite Hinf in Hin. split.
    + destruct (added_frame cell n ai) as (_ & _ & _ & -> & _ & _).
      rewrite !elem_of_app. right. by right.
    + apply Hmines; [reflexivity|].
      change (cells B ∖ cells A) with (cells (inferred A B)).
      rewrite Hinf. simpl. by apply elem_of_singleton.
Qed.

(** C5. If [knowledge] holds [A = ({(0,0),(0,1)}, 1)] and
    [B = ({(0,0),(0,1),(0,2)}, 2)], then after the next [add_knowledge]
    call, made for a cell without a mine on a board of which [A] and [B]
    are true (the engine is told about such cells only), [knowledge] holds
    the sentence [({(0,2)}, 1)] and [(0,2)] is in [mines]. *)
Theorem resolution_example `{Runtime} (M : gset Cell) (cell : Cell) (n : Z)
    (ai : MinesweeperAI) :
  mkSentence {[(0, 0); (0, 1)]} 1 ∈ knowledge ai →
  mkSentence {[(0, 0); (0, 1); (0, 2)]} 2 ∈ knowledge ai →
  sentence_true M (mkSentence {[(0, 0); (0, 1)]} 1) →
  sentence_true M (mkSentence {[(0, 0); (0, 1); (0, 2)]} 2) →
  cell ∉ M →
  ∃ ai',
    add_knowledge cell n ai = Returned ai'
    ∧ (mkSentence {[(0, 2)]} 1 ∈ knowledge ai')
    ∧ ((0, 2) ∈ mines ai').
Proof.
  intros HA HB HtA HtB Hcell. apply resolution_example_other_cell; [done | done |].
  intros ->. apply Hcell. clear HA HB Hcell.
  unfold sentence_true in HtA, HtB. simpl in HtA, HtB.
  destruct (decide ((0, 2) ∈ M)) as [|Hno]; [done|]. exfalso.
  assert (({[(0, 0); (0, 1); (0, 2)]} : gset Cell) ∩ M = {[(0, 0); (0, 1)]} ∩ M) as Heq
    by set_solver.
  rewrite Heq in HtB. lia.
Qed.

Lemma resolution_example_witness :
  ∃ ai ai',
    run_calls [(plain_runtime, CallAddKnowledge (1, 0) 1);
               (plain_runtime, CallAddKnowledge (1, 1) 2);
               (plain_runtime, CallAddKnowledge (1, 2) 2)] (AI_init 2 3)
    = Returned ai
    ∧ @add_knowledge plain_runtime (0, 0) 1 ai = Returned ai'
    ∧ (mkSentence {[(0, 2)]} 1 ∈ knowledge ai')
    ∧ ((0, 2) ∈ mines ai').
Proof.
  assert (∃ ai,
            run_calls [(plain_runtime, CallAddKnowledge (1, 0) 1);
                       (plain_runtime, CallAddKnowledge (1, 1) 2);
                       (plain_runtime, CallAddKnowledge (1, 2) 2)] (AI_init 2 3)
            = Returned ai
            ∧ (mkSentence {[(0, 0); (0, 1)]} 1 ∈ knowledge ai)
            ∧ (mkSentence {[(0, 0); (0, 1); (0, 2)]} 2 ∈ knowledge ai))
    as (ai & Hrun & HA & HB).
  { vm_compute. eexists. split; [reflexivity|]. split; [left | right; left]. }
  destruct (@resolution_example plain_runtime {[(0, 1); (0, 2)]} (0, 0) 1 ai HA HB)
    as (ai' & Hadd & Hin & Hmine).
  - by vm_compute.
  - by vm_compute.
  - by vm_compute.
  - exists ai, ai'. split; [exact Hrun|]. split; [exact Hadd|].
    split; [exact Hin | exact Hmine].
Defined.

(** C10, as stated, fails when the next call probes a cell of [B]: on a
    board of one row and three columns, after [add_knowledge((0,0), 0)]
    and [add_knowledge((0,1), 0)], [knowledge] holds [E = (∅, 0)] and
    [B = ({(0,2)}, 0)]; the call [add_knowledge((0,2), 0)] empties [B]
    before the pass, and afterwards every sentence of [knowledge] has an
    empty cell set. *)
Lemma empty_sentence_resolution_fails_on_probed_cell :
  ∃ ai ai',
    run_calls [(plain_runtime, CallAddKnowledge (0, 0) 0);
               (plain_runtime, CallAddKnowledge (0, 1) 0)] (AI_init 1 3)
    = Returned ai
    ∧ (mkSentence ∅ 0 ∈ knowledge ai)
    ∧ (mkSentence {[(0, 2)]} 0 ∈ knowledge ai)
    ∧ @add_knowledge plain_runtime (0, 2) 0 ai = Returned ai'
    ∧ Forall (λ s, cells s = ∅) (knowledge ai').
Proof.
  eexists _, _. split; [reflexivity|].
  split; [apply (bool_decide_unpack _); vm_compute; exact I|].
  split; [apply (bool_decide_unpack _); vm_compute; exact I|].
  split; [reflexivity|].
  apply (bool_decide_unpack _). vm_compute. exact I.
Qed.

Lemma copies_map (f : Sentence → Sentence) (B : Sentence) (l : list Sentence) :
  f B = B →
  (length (filter (λ s, s = B) l) ≤ length (filter (λ s, s = B) (map f l)))%nat.
Proof.
  intros HB. induction l as [|s l IH]; [done|]. simpl.
  rewrite !filter_cons. destruct (decide (s = B)) as [->|Hs].
  - rewrite HB, decide_True by done. simpl. lia.
  - case_decide; simpl; lia.
Qed.

Lemma copies_elem (B : Sentence) (l : list Sentence) :
  B ∈ l → (0 < length (filter (λ s, s = B) l))%nat.
Proof.
  intros Hin. assert (B ∈ filter (λ s, s = B) l) as Hin'
    by (by apply list_elem_of_filter).
  destruct (filter (λ s, s = B) l); [by apply elem_of_nil in Hin' | simpl; lia].
Qed.

(** With a sentence [E] without cells and with count 0 in [knowledge],
    an [add_knowledge] call that does not probe a cell of [B] appends a
    copy of [B], and keeps the copies that were there. *)
Lemma added_duplicates `{Runtime} (cell : Cell) (n : Z) (ai : MinesweeperAI) (E B : Sentence) :
  E ∈ knowledge ai → cells E = ∅ → count E = 0 →
  B ∈ knowledge ai → cells B ≠ ∅ → cell ∉ cells B →
  B ∈ map sval (iter_objs (new_sentences (passed (observed cell n ai))))
  ∧ E ∈ knowledge (added cell n ai) ∧ B ∈ knowledge (added cell n ai)
  ∧ (length (filter (λ s, s = B) (knowledge ai))
     < length (filter (λ s, s = B) (knowledge (added cell n ai))))%nat.
Proof.
  intros HE Hempty Hzero HB Hcells Hcell.
  assert (forget_safe cell B = B) as HfB
    by (unfold forget_safe; by rewrite decide_False).
  assert (B ∈ map sval (iter_objs (new_sentences (passed (observed cell n ai)))))
    as Hnew.
  { destruct (added_infers cell n ai E B HE HB) as [Hin _].
    - rewrite Hempty. set_solver.
    - by rewrite Hempty.
    - set_solver.
    - unfold inferred in Hin. rewrite Hempty, Hzero in Hin.
      replace (cells B ∖ ∅) with (cells B) in Hin by set_solver.
      replace (count B - 0) with (count B) in Hin by lia.
      by destruct B. }
  destruct (added_frame cell n ai) as (_ & _ & _ & -> & _ & _).
  split; [done|]. split; [|split].
  - apply elem_of_app. left. apply list_elem_of_fmap. exists E.
    by destruct (forget_empty cell E Hempty) as [_ ->].
  - apply elem_of_app. left. apply list_elem_of_fmap. exists B. by rewrite HfB.
  - rewrite !filter_app, !length_app.
    pose proof (copies_map (forget_safe cell) B (knowledge ai) HfB).
    pose proof (copies_elem B _ Hnew). lia.
Qed.

(** C10, amended.  A sentence [E] of [knowledge] with no cells stays in
    [knowledge] through every call.  If [knowledge] also holds a sentence
    [B] with cells, then the next [add_knowledge] call, provided the cell
    it probes is not a cell of [B], keeps [E] and [B] among the sentences
    it had and appends, after its observation, a sentence with the cells
    of [B] and the count of [B] minus the count of [E].  When the count of
    [E] is 0 that sentence is [B] once more: the call leaves more copies
    of [B] in [knowledge] than it found, and a sequence of such calls at
    least one more copy for each call. *)
Theorem empty_sentence_resolution `{Runtime} (ai : MinesweeperAI) (E B : Sentence) :
  E ∈ knowledge ai → cells E = ∅ → B ∈ knowledge ai → cells B ≠ ∅ →
  (∀ c, ∃ ai', run_call c ai = Returned ai' ∧ E ∈ knowledge ai')
  ∧ (∀ cell n, cell ∉ cells B →
      ∃ ai' old news,
        add_knowledge cell n ai = Returned ai'
        ∧ knowledge ai' = old ++ news
        ∧ length old = S (length (knowledge ai))
        ∧ E ∈ old ∧ B ∈ old
        ∧ mkSentence (cells B) (count B - count E) ∈ news
        ∧ (count E = 0 →
           B ∈ news
           ∧ (length (filter (λ s, s = B) (knowledge ai))
              < length (filter (λ s, s = B) (knowledge ai')))%nat))
  ∧ (count E = 0 →
     ∀ probes : list (Runtime * (Cell * Z)),
       Forall (λ p, p.2.1 ∉ cells B) probes →
       ∃ ai',
         run_calls (map (λ p, (p.1, CallAddKnowledge p.2.1 p.2.2)) probes) ai
         = Returned ai'
         ∧ (length (filter (λ s, s = B) (knowledge ai)) + length probes
            ≤ length (filter (λ s, s = B) (knowledge ai')))%nat).
Proof.
  intros HE Hempty HB Hcells.
  assert (∀ cell, E ∈ map (forget_safe cell) (knowledge ai)) as HEsafe.
  { intros cell. apply list_elem_of_fmap. exists E.
    by destruct (forget_empty cell E Hempty) as [_ ->]. }
  split; [|split].
  - intros c. rewrite run_call_eq. eexists. split; [done|].
    destruct c as [cell|cell|cell n| |]; simpl; try done.
    + apply list_elem_of_fmap. exists E.
      by destruct (forget_empty cell E Hempty) as [-> _].
    + destruct (added_frame cell n ai) as (_ & _ & _ & -> & _ & _).
      apply elem_of_app. by left.
  - intros cell n Hcell.
    exists (added cell n ai),
           (map (forget_safe cell) (knowledge ai) ++ [my_sentence cell n ai]),
           (map sval (iter_objs (new_sentences (passed (observed cell n ai))))).
    split; [apply add_knowledge_eq|].
    assert (knowledge (added cell n ai)
            = (map (forget_safe cell) (knowledge ai) ++ [my_sentence cell n ai])
              ++ map sval (iter_objs (new_sentences (passed (observed cell n ai)))))
      as Hk.
    { destruct (added_frame cell n ai) as (_ & _ & _ & -> & _ & _).
      by rewrite <- app_assoc. }
    split; [done|].
    split; [rewrite length_app, length_map; simpl; lia|].
    split; [apply elem_of_app; by left|].
    split.
    { apply elem_of_app. left. apply list_elem_of_fmap. exists B.
      unfold forget_safe. by rewrite decide_False. }
    split.
    { destruct (added_infers cell n ai E B HE HB) as [Hin _].
      - rewrite Hempty. set_solver.
      - by rewrite Hempty.
      - set_solver.
      - unfold inferred in Hin. rewrite Hempty in Hin.
        by replace (cells B ∖ ∅) with (cells B) in Hin by set_solver. }
    intros Hzero.
    destruct (added_duplicates cell n ai E B HE Hempty Hzero HB Hcells Hcell)
      as (Hnew & _ & _ & Hmore). done.
  - intros Hzero probes. clear HEsafe. revert ai HE HB.
    induction probes as [|[R [cell n]] probes IH]; intros ai HE HB Hprobes.
    + exists ai. split; [done|]. simpl. lia.
    + apply Forall_cons in Hprobes as [Hcell Hprobes]. simpl in Hcell.
      destruct (@added_duplicates R cell n ai E B HE Hempty Hzero HB Hcells Hcell)
        as (_ & HE' & HB' & Hmore).
      destruct (IH (@added R cell n ai) HE' HB' Hprobes) as (ai' & Hrun & Hcount).
      exists ai'. split.
      * cbn [map]. rewrite run_calls_cons. cbn [fst snd run_call].
        rewrite (@add_knowledge_eq R). exact Hrun.
      * simpl. lia.
Qed.

Lemma empty_sentence_resolution_witness :
  ∃ ai ai' old news,
    run_calls [(plain_runtime, CallAddKnowledge (0, 0) 0);
               (plain_runtime, CallAddKnowledge (0, 1) 0)] (AI_init 1 4)
    = Returned ai
    ∧ @add_knowledge plain_runtime (0, 3) 0 ai = Returned ai'
    ∧ knowledge ai' = old ++ news
    ∧ length old = S (length (knowledge ai))
    ∧ (mkSentence ∅ 0 ∈ old) ∧ (mkSentence {[(0, 2)]} 0 ∈ old)
    ∧ (mkSentence {[(0, 2)]} 0 ∈ news)
    ∧ Nat.lt (length (filter (λ s, s = mkSentence {[(0, 2)]} 0) (knowledge ai)))
             (length (filter (λ s, s = mkSentence {[(0, 2)]} 0) (knowledge ai'))).
Proof.
  set (ai := mkAI 1 4 {[(0, 0); (0, 1)]} ∅ {[(0, 0); (0, 1); (0, 2)]}
               [mkSentence ∅ 0; mkSentence {[(0, 2)]} 0;
                mkSentence {[(0, 2)]} 0; mkSentence {[(0, 2)]} 0]).
  destruct (proj1 (proj2 (@empty_sentence_resolution plain_runtime ai
                   (mkSentence ∅ 0) (mkSentence {[(0, 2)]} 0)
                   ltac:(simpl; left) eq_refl ltac:(simpl; right; left)
                   ltac:(simpl; discriminate)))
                (0, 3) 0 ltac:(simpl; by vm_compute))
    as (ai' & old & news & Hrun & Hk & Hlen & HE & HB & _ & Hdup).
  destruct (Hdup eq_refl) as [Hnew Hmore].
  exists ai, ai', old, news.
  split; [vm_compute; reflexivity|].
  split; [exact Hrun|]. split; [exact Hk|]. split; [exact Hlen|].
  split; [exact HE|]. split; [exact HB|]. split; [exact Hnew | exact Hmore].
Defined.

(** * Further properties *)

(** ** Sentences *)

(** X1. No sentence has both known mines and known safes: one of the two
    sets that [known_mines] and [known_safes] return is empty. *)
Theorem known_mines_safes_exclusive (s : Sentence) :
  (known_mines s).1 = ∅ ∨ (known_safes s).1 = ∅.
Proof.
  unfold known_mines, known_safes. simpl.
  destruct (decide (count s = Z.of_nat (size (cells s)))) as [Hall|]; [|by left].
  destruct (decide (count s = 0)) as [Hz|]; [|by right].
  left. apply leibniz_equiv, size_empty_inv. lia.
Qed.

(** ** [check] *)

(** What [check] adds, and what it keeps. *)
Lemma check_known_cells `{Runtime} (ai : MinesweeperAI) (s : Sentence) :
  mines (check ai s) = (known_mines s).1 ∪ mines ai
  ∧ safes (check ai s) = (known_safes s).1 ∪ safes ai
  ∧ knowledge (check ai s) = knowledge ai
  ∧ moves_made (check ai s) = moves_made ai
  ∧ height (check ai s) = height ai ∧ width (check ai s) = width ai.
Proof.
  destruct (check_frame ai s) as (Hh & Hw & Hmv & Hk & _ & _).
  repeat split; try done.
  - rewrite check_eq. unfold known_mines. simpl.
    destruct (decide (count s = Z.of_nat (size (cells s)))) as [Hall|Hall].
    + destruct (decide (cells s = ∅)) as [He|He].
      * rewrite decide_False by tauto. rewrite He.
        case_decide; simpl; set_solver.
      * by rewrite decide_True.
    + rewrite decide_False by tauto. case_decide; simpl; set_solver.
  - rewrite check_eq. unfold known_safes. simpl.
    destruct (decide (count s = Z.of_nat (size (cells s)))) as [Hall|Hall],
             (decide (count s = 0)) as [Hz|Hz],
             (decide (cells s = ∅)) as [He|He].
    all: try (exfalso; apply He, leibniz_equiv, size_empty_inv; lia).
    all: repeat (first [rewrite decide_True by tauto
                       | rewrite decide_False by tauto]; simpl).
    all: try rewrite He.
    all: by rewrite ?(left_id_L ∅ (∪)).
Qed.

(** X3. [check] adds to [mines] exactly the known mines of the sentence
    and to [safes] exactly its known safes (the [elif] hides nothing: a
    sentence with known mines has no known safes), and changes nothing
    else; in particular a sentence without cells changes nothing. *)
Theorem check_adds_known_cells `{Runtime} (ai : MinesweeperAI) (s : Sentence) :
  mines (check ai s) = (known_mines s).1 ∪ mines ai
  ∧ safes (check ai s) = (known_safes s).1 ∪ safes ai
  ∧ knowledge (check ai s) = knowledge ai
  ∧ moves_made (check ai s) = moves_made ai
  ∧ height (check ai s) = height ai ∧ width (check ai s) = width ai.
Proof. apply check_known_cells. Qed.

(** ** [mark_mine] and [mark_safe] of the knowledge base *)

Lemma forget_mine_twice (cell : Cell) (s : Sentence) :
  forget_mine cell (forget_mine cell s) = forget_mine cell s.
Proof.
  unfold forget_mine at 1. rewrite decide_False; [done|].
  rewrite forget_mine_cells. set_solver.
Qed.

Lemma forget_safe_twice (cell : Cell) (s : Sentence) :
  forget_safe cell (forget_safe cell s) = forget_safe cell s.
Proof.
  unfold forget_safe at 1. rewrite decide_False; [done|].
  destruct (forget_safe_cells cell s) as [-> _]. set_solver.
Qed.

(** X2. On one sentence both marks return, and they compose: after
    [mark_mine] of a cell, [mark_safe] and [mark_mine] of the same cell
    return the sentence unchanged (they find nothing to remove); after
    [mark_safe] of a cell, a second [mark_safe] of it returns the sentence
    unchanged; and [mark_safe] of one cell and [mark_mine] of another
    return the same sentence in either order.  None of these calls
    raises. *)
Theorem Sentence_marks_compose `{Runtime} (c c' : Cell) (s : Sentence) :
  ∃ m f,
    Sentence_mark_mine c s = Returned m
    ∧ Sentence_mark_safe c s = Returned f
    ∧ Sentence_mark_safe c m = Returned m
    ∧ Sentence_mark_mine c m = Returned m
    ∧ Sentence_mark_safe c f = Returned f
    ∧ (c ≠ c' →
       ∃ m' r, Sentence_mark_mine c' s = Returned m'
               ∧ Sentence_mark_mine c' f = Returned r
               ∧ Sentence_mark_safe c m' = Returned r).
Proof.
  exists (forget_mine c s), (forget_safe c s).
  split; [apply Sentence_mark_mine_eq|]. split; [apply Sentence_mark_safe_eq|].
  split.
  { rewrite Sentence_mark_safe_eq. f_equal. rewrite decide_False; [done|].
    rewrite forget_mine_cells. set_solver. }
  split.
  { rewrite Sentence_mark_mine_eq. f_equal. apply forget_mine_twice. }
  split.
  { rewrite Sentence_mark_safe_eq. f_equal. apply forget_safe_twice. }
  intros Hne. exists (forget_mine c' s), (forget_mine c' (forget_safe c s)).
  split; [apply Sentence_mark_mine_eq|]. split; [apply Sentence_mark_mine_eq|].
  rewrite Sentence_mark_safe_eq. f_equal.
  change (forget_safe c (forget_mine c' s) = forget_mine c' (forget_safe c s)).
  unfold forget_mine, forget_safe.
  destruct (decide (c ∈ cells s)) as [Hc|Hc], (decide (c' ∈ cells s)) as [Hc'|Hc'];
    simpl.
  all: repeat (first [rewrite decide_True by set_solver
                     | rewrite decide_False by set_solver]; simpl).
  all: try done.
  f_equal. set_solver.
Qed.

Lemma Sentence_marks_compose_witness :
  ∃ m' r,
    @Sentence_mark_mine plain_runtime (0, 1) (mkSentence {[(0, 0); (0, 1)]} 1)
    = Returned m'
    ∧ (∃ f, @Sentence_mark_safe plain_runtime (0, 0) (mkSentence {[(0, 0); (0, 1)]} 1)
            = Returned f
            ∧ @Sentence_mark_mine plain_runtime (0, 1) f = Returned r)
    ∧ @Sentence_mark_safe plain_runtime (0, 0) m' = Returned r.
Proof.
  destruct (@Sentence_marks_compose plain_runtime (0, 0) (0, 1)
              (mkSentence {[(0, 0); (0, 1)]} 1))
    as (m & f & _ & Hf & _ & _ & _ & Hcomm).
  destruct Hcomm as (m' & r & Hm' & Hr & Hr'); [discriminate|].
  exists m', r. split; [exact Hm'|]. split; [|exact Hr'].
  exists f. split; [exact Hf | exact Hr].
Defined.

(** X4. [MinesweeperAI.mark_mine] returns; afterwards the cell is in
    [mines], no sentence of [knowledge] mentions it, every sentence is the
    one that stood at its place without the cell, with 1 taken from its
    count when it held the cell, and nothing else has changed.  A second
    call with the same cell changes nothing more. *)
Theorem mark_mine_clears_cell `{Runtime} (cell : Cell) (ai : MinesweeperAI) :
  ∃ ai',
    mark_mine cell ai = Returned ai'
    ∧ mines ai' = {[cell]} ∪ mines ai
    ∧ safes ai' = safes ai ∧ moves_made ai' = moves_made ai
    ∧ height ai' = height ai ∧ width ai' = width ai
    ∧ Forall (λ s, cell ∉ cells s) (knowledge ai')
    ∧ Forall2 (λ s s', cells s' = cells s ∖ {[cell]}
                       ∧ count s' = count s - (if decide (cell ∈ cells s) then 1 else 0))
              (knowledge ai) (knowledge ai')
    ∧ mark_mine cell ai' = Returned ai'.
Proof.
  eexists. split; [apply mark_mine_eq|]. simpl. repeat split.
  - apply Forall_forall. intros s' (s & -> & _)%list_elem_of_fmap.
    rewrite forget_mine_cells. set_solver.
  - apply Forall2_fmap_r, Forall_Forall2_diag, Forall_forall. intros s _.
    split; [apply forget_mine_cells|].
    unfold forget_mine. destruct (decide (cell ∈ cells s)); simpl; lia.
  - rewrite mark_mine_eq. simpl. f_equal. f_equal; [set_solver|].
    rewrite <- list_fmap_compose. apply list_fmap_ext. intros i s _. simpl.
    apply forget_mine_twice.
Qed.

(** X5. [MinesweeperAI.mark_safe] returns; afterwards the cell is in
    [safes], no sentence of [knowledge] mentions it, every sentence is the
    one that stood at its place without the cell and with the same count,
    and nothing else has changed.  A second call with the same cell
    changes nothing more. *)
Theorem mark_safe_clears_cell `{Runtime} (cell : Cell) (ai : MinesweeperAI) :
  ∃ ai',
    mark_safe cell ai = Returned ai'
    ∧ safes ai' = {[cell]} ∪ safes ai
    ∧ mines ai' = mines ai ∧ moves_made ai' = moves_made ai
    ∧ height ai' = height ai ∧ width ai' = width ai
    ∧ Forall (λ s, cell ∉ cells s) (knowledge ai')
    ∧ Forall2 (λ s s', cells s' = cells s ∖ {[cell]} ∧ count s' = count s)
              (knowledge ai) (knowledge ai')
    ∧ mark_safe cell ai' = Returned ai'.
Proof.
  eexists. split; [apply mark_safe_eq|]. simpl. repeat split.
  - apply Forall_forall. intros s' (s & -> & _)%list_elem_of_fmap.
    destruct (forget_safe_cells cell s) as [-> _]. set_solver.
  - apply Forall2_fmap_r, Forall_Forall2_diag, Forall_forall. intros s _.
    apply forget_safe_cells.
  - rewrite mark_safe_eq. simpl. f_equal. f_equal; [set_solver|].
    rewrite <- list_fmap_compose. apply list_fmap_ext. intros i s _. simpl.
    apply forget_safe_twice.
Qed.

(** ** [make_random_move] *)

Lemma elem_of_board_cells (h w : Z) (c : Cell) :
  c ∈ (i ← range h; j ← range w; [(i, j)]) ↔ on_board h w c.
Proof.
  unfold on_board, range. rewrite list_elem_of_bind. split.
  - intros (i & (j & Hc & Hj)%list_elem_of_bind & Hi).
    apply list_elem_of_singleton in Hc as ->. simpl.
    apply elem_of_seqZ in Hi, Hj. lia.
  - intros [Hi Hj]. exists c.1. split; [|apply elem_of_seqZ; lia].
    apply list_elem_of_bind. exists c.2. split; [|apply elem_of_seqZ; lia].
    destruct c. simpl. apply list_elem_of_singleton. done.
Qed.

(** X6. [make_random_move] returns a cell of the board that is neither in
    [moves_made] nor in [mines] when the board has one, and [None] when
    every cell of the board is in one of the two sets (as on a board
    without rows or columns); the knowledge base after the call is the one
    before it. *)
Theorem make_random_move_spec (ai : MinesweeperAI) :
  (make_random_move ai).2 = ai
  ∧ match (make_random_move ai).1 with
    | Some c => on_board (height ai) (width ai) c
                ∧ (c ∉ moves_made ai) ∧ (c ∉ mines ai)
    | None => ∀ c, on_board (height ai) (width ai) c →
                   c ∈ moves_made ai ∨ c ∈ mines ai
    end.
Proof.
  split; [done|]. unfold make_random_move. cbn [fst].
  destruct (List.find _ _) as [c|] eqn:Hfind.
  - apply find_some in Hfind as [Hin Hc].
    apply list_elem_of_In, elem_of_board_cells in Hin.
    apply andb_true_iff in Hc as [Hmv Hm].
    apply bool_decide_eq_true in Hmv, Hm. done.
  - intros c Hc.
    assert (bool_decide (c ∉ moves_made ai) && bool_decide (c ∉ mines ai) = false)
      as Hno.
    { apply (find_none _ _ Hfind c). by apply list_elem_of_In, elem_of_board_cells. }
    apply andb_false_iff in Hno as [Hno|Hno]; apply bool_decide_eq_false in Hno.
    + left. by apply dec_stable.
    + right. by apply dec_stable.
Qed.

(** ** What [add_knowledge] appends and concludes *)

Section pass_origin.
Context `{Runtime}.

Lemma resolved_origin (k : list Sentence) (st : pass_state) (s1 s2 : Sentence) (v : Sentence) :
  s1 ∈ k → s2 ∈ k →
  (∀ v, v ∈ map sval (new_sentences st) →
        ∃ a b, a ∈ k ∧ b ∈ k ∧ cells a ⊆ cells b ∧ cells a ≠ cells b
               ∧ v = inferred a b) →
  v ∈ map sval (new_sentences (resolved st s1 s2)) →
  ∃ a b, a ∈ k ∧ b ∈ k ∧ cells a ⊆ cells b ∧ cells a ≠ cells b ∧ v = inferred a b.
Proof.
  intros H1 H2 Hst. unfold resolved, check_pair, record_new.
  repeat case_decide; simpl; try apply Hst.
  all: intros (o & -> & [Ho| ->]%elem_of_pyset_add)%list_elem_of_fmap;
    [apply Hst, list_elem_of_fmap; by exists o|]; simpl.
  - by exists s1, s2.
  - exists s2, s1. repeat split; done.
Qed.

(** Every sentence the pass collects is the difference of two sentences
    of the knowledge base, the cells of one properly inside the cells of
    the other. *)
Lemma passed_origin (ai : MinesweeperAI) (v : Sentence) :
  v ∈ map sval (new_sentences (passed ai)) →
  ∃ a b, a ∈ knowledge ai ∧ b ∈ knowledge ai
         ∧ cells a ⊆ cells b ∧ cells a ≠ cells b ∧ v = inferred a b.
Proof.
  revert v. unfold passed.
  apply (fold_left_invariant
           (λ st, ∀ v, v ∈ map sval (new_sentences st) →
                       ∃ a b, a ∈ knowledge ai ∧ b ∈ knowledge ai
                              ∧ cells a ⊆ cells b ∧ cells a ≠ cells b
                              ∧ v = inferred a b)).
  - intros st s1 H1 Hst.
    apply (fold_left_invariant
             (λ st, ∀ v, v ∈ map sval (new_sentences st) →
                         ∃ a b, a ∈ knowledge ai ∧ b ∈ knowledge ai
                                ∧ cells a ⊆ cells b ∧ cells a ≠ cells b
                                ∧ v = inferred a b)); [|done].
    intros st' s2 H2 Hst' v. by apply resolved_origin.
  - simpl. intros v Hv. by apply elem_of_nil in Hv.
Qed.

(** The sentences of [knowledge] after [add_knowledge]. *)
Lemma added_differences (cell : Cell) (n : Z) (ai : MinesweeperAI) :
  ∃ ai' news,
    let old := map (forget_safe cell) (knowledge ai) ++ [my_sentence cell n ai] in
    add_knowledge cell n ai = Returned ai'
    ∧ knowledge ai' = old ++ news
    ∧ ∀ v, v ∈ news ↔
           ∃ a b, a ∈ old ∧ b ∈ old ∧ cells a ⊆ cells b ∧ cells a ≠ cells b
                  ∧ v = mkSentence (cells b ∖ cells a) (count b - count a).
Proof.
  exists (added cell n ai),
         (map sval (iter_objs (new_sentences (passed (observed cell n ai))))).
  cbv zeta. split; [apply add_knowledge_eq|].
  destruct (added_frame cell n ai) as (_ & _ & _ & -> & _ & _).
  split; [by rewrite <- app_assoc|].
  destruct (observed_frame cell n ai) as (_ & _ & _ & Hk & _ & _).
  intros v. rewrite (iter_objs_perm _), <- Hk. split.
  - apply passed_origin.
  - intros (a & b & Ha & Hb & Hsub & Hne & ->). by apply passed_infers.
Qed.

(** X7. [add_knowledge] returns, and [knowledge] then is: the sentences
    it had, each without the probed cell; the observation; and the
    sentences of the pass.  A sentence is among those of the pass exactly
    when it is the difference of two sentences [a] and [b] of the first
    two parts, the cells of [a] properly inside the cells of [b]: its
    cells are those of [b] outside [a], its count the count of [b] minus
    the count of [a]. *)
Theorem add_knowledge_appends_differences (cell : Cell) (n : Z) (ai : MinesweeperAI) :
  ∃ ai' news,
    let old := map (forget_safe cell) (knowledge ai) ++ [my_sentence cell n ai] in
    add_knowledge cell n ai = Returned ai'
    ∧ knowledge ai' = old ++ news
    ∧ ∀ v, v ∈ news ↔
           ∃ a b, a ∈ old ∧ b ∈ old ∧ cells a ⊆ cells b ∧ cells a ≠ cells b
                  ∧ v = mkSentence (cells b ∖ cells a) (count b - count a).
Proof. apply added_differences. Qed.
End pass_origin.

Section add_knowledge_conclusions.
Context `{Runtime}.

Lemma added_sentences_from (P : Cell → Prop) (cell : Cell) (n : Z) (ai : MinesweeperAI) :
  Forall (λ s, ∀ c, c ∈ cells s → P c) (map (forget_safe cell) (knowledge ai)) →
  (∀ c, c ∈ cells (my_sentence cell n ai) → P c) →
  Forall (λ s, ∀ c, c ∈ cells s → P c) (knowledge (added cell n ai)).
Proof.
  intros Hold Hobs.
  destruct (added_differences cell n ai) as (ai' & news & Hrun & Hk & Hnews).
  rewrite add_knowledge_eq in Hrun. injection Hrun as <-. rewrite Hk.
  assert (Forall (λ s, ∀ c, c ∈ cells s → P c)
            (map (forget_safe cell) (knowledge ai) ++ [my_sentence cell n ai])) as Hfirst.
  { apply Forall_app. split; [done | by apply Forall_singleton]. }
  apply Forall_app. split; [done|].
  rewrite Forall_forall in Hfirst. apply Forall_forall.
  intros v (a & b & _ & Hb & _ & _ & ->)%Hnews c Hc. simpl in Hc.
  apply (Hfirst b Hb). set_solver.
Qed.

(** X8. After [add_knowledge(cell, count)] the probed cell is in
    [moves_made] and in [safes], and no sentence of [knowledge] mentions
    it. *)
Theorem add_knowledge_settles_cell (cell : Cell) (n : Z) (ai : MinesweeperAI) :
  ∃ ai',
    add_knowledge cell n ai = Returned ai'
    ∧ moves_made ai' = {[cell]} ∪ moves_made ai
    ∧ cell ∈ safes ai'
    ∧ Forall (λ s, cell ∉ cells s) (knowledge ai').
Proof.
  exists (added cell n ai). split; [apply add_knowledge_eq|].
  destruct (added_frame cell n ai) as (_ & _ & Hmv & _ & _ & Hs).
  split; [done|]. split; [set_solver|].
  pose proof (added_sentences_from (λ c, c ≠ cell) cell n ai) as Hfrom.
  eapply Forall_impl; [apply Hfrom|].
  - apply Forall_forall. intros s' (s & -> & _)%list_elem_of_fmap c Hc.
    destruct (forget_safe_cells cell s) as [Hcells _]. rewrite Hcells in Hc. set_solver.
  - intros c Hc. unfold my_sentence in Hc. simpl in Hc.
    pose proof (neighbours_not_self (height ai) (width ai) cell). set_solver.
  - intros s Hs' Hin. by apply (Hs' cell Hin).
Qed.

(** X9. When the count given to [add_knowledge] is the number of
    neighbours already in [mines] (in particular a count of 0 with no
    known mine around), every neighbour of the cell that is not in [mines]
    is in [safes] after the call. *)
Theorem add_knowledge_zero_count (cell : Cell) (n : Z) (ai : MinesweeperAI) :
  n = Z.of_nat (size (neighbours (height ai) (width ai) cell ∩ mines ai)) →
  ∃ ai',
    add_knowledge cell n ai = Returned ai'
    ∧ neighbours (height ai) (width ai) cell ∖ mines ai ⊆ safes ai'.
Proof.
  intros Hn. exists (added cell n ai). split; [apply add_knowledge_eq|].
  unfold added. cbv zeta.
  match goal with
  | |- _ ⊆ safes (append_new ?a ?l) =>
      destruct (append_new_frame l a) as (_ & _ & _ & _ & _ & Hs)
  end.
  destruct (passed_frame (observed cell n ai)) as (_ & _ & _ & _ & _ & Hs' & _).
  etrans; [|apply Hs]. etrans; [|apply Hs'].
  unfold observed.
  match goal with
  | |- _ ⊆ safes (check ?a ?s) =>
      destruct (check_known_cells a s) as (_ & -> & _)
  end.
  unfold known_safes, my_sentence. simpl.
  rewrite decide_True by lia.
  intros c [HN Hm]%elem_of_difference.
  destruct (decide (c ∈ safes ai)) as [Hs''|Hs''].
  - apply elem_of_union. right. apply elem_of_union. by right.
  - apply elem_of_union. left. apply elem_of_difference. split; [done|].
    intros [?|?]%elem_of_union; done.
Qed.

(** X10. When the count given to [add_knowledge], less the number of
    neighbours already in [mines], is the number of neighbours in neither
    [mines] nor [safes], all those neighbours are in [mines] after the
    call. *)
Theorem add_knowledge_full_count (cell : Cell) (n : Z) (ai : MinesweeperAI) :
  n - Z.of_nat (size (neighbours (height ai) (width ai) cell ∩ mines ai))
  = Z.of_nat (size (neighbours (height ai) (width ai) cell ∖ (mines ai ∪ safes ai))) →
  ∃ ai',
    add_knowledge cell n ai = Returned ai'
    ∧ neighbours (height ai) (width ai) cell ∖ (mines ai ∪ safes ai) ⊆ mines ai'.
Proof.
  intros Hn. exists (added cell n ai). split; [apply add_knowledge_eq|].
  unfold added. cbv zeta.
  match goal with
  | |- _ ⊆ mines (append_new ?a ?l) =>
      destruct (append_new_frame l a) as (_ & _ & _ & _ & Hm & _)
  end.
  destruct (passed_frame (observed cell n ai)) as (_ & _ & _ & _ & Hm' & _ & _).
  etrans; [|apply Hm]. etrans; [|apply Hm'].
  unfold observed.
  match goal with
  | |- _ ⊆ mines (check ?a ?s) =>
      destruct (check_known_cells a s) as (-> & _)
  end.
  unfold known_mines, my_sentence. simpl.
  rewrite decide_True by done.
  intros c Hc. apply elem_of_union. by left.
Qed.
End add_knowledge_conclusions.

Lemma add_knowledge_zero_count_witness :
  ∃ ai',
    @add_knowledge plain_runtime (1, 1) 0 (AI_init 3 3) = Returned ai'
    ∧ neighbours 3 3 (1, 1) ∖ ∅ ⊆ safes ai'.
Proof.
  apply (@add_knowledge_zero_count plain_runtime (1, 1) 0 (AI_init 3 3)).
  by vm_compute.
Defined.

Lemma add_knowledge_full_count_witness :
  ∃ ai',
    @add_knowledge plain_runtime (0, 0) 1 (AI_init 1 2) = Returned ai'
    ∧ neighbours 1 2 (0, 0) ∖ (∅ ∪ ∅) ⊆ mines ai'.
Proof.
  apply (@add_knowledge_full_count plain_runtime (0, 0) 1 (AI_init 1 2)).
  by vm_compute.
Defined.

(** ** Sequences of calls *)

(** What every call keeps, every sequence of calls keeps. *)
Lemma run_calls_invariant (I : MinesweeperAI → Prop) :
  (∀ (R : Runtime) c ai ai', I ai → @run_call R c ai = Returned ai' → I ai') →
  ∀ tr ai, I ai → ∃ ai', run_calls tr ai = Returned ai' ∧ I ai'.
Proof.
  intros Hstep tr. induction tr as [|[R c] tr IH]; intros ai Hai.
  - by exists ai.
  - destruct (@run_call_grows R c ai) as (ai1 & Hrun & _).
    destruct (IH ai1) as (ai2 & Hrun2 & Hai2); [by eapply Hstep|].
    exists ai2. rewrite run_calls_cons. simpl. rewrite Hrun. done.
Qed.

Lemma forget_cells_subseteq (cell : Cell) (s : Sentence) :
  cells (forget_mine cell s) ⊆ cells s ∧ cells (forget_safe cell s) ⊆ cells s.
Proof.
  rewrite forget_mine_cells. destruct (forget_safe_cells cell s) as [-> _].
  set_solver.
Qed.

(** A property of cells that every call keeps for the cells of the
    sentences, provided the cells of a new observation have it. *)
Lemma run_call_sentences (P : MinesweeperAI → Cell → Prop) (R : Runtime)
    (c : call) (ai ai' : MinesweeperAI) :
  (∀ cell n x, c = CallAddKnowledge cell n →
               x ∈ cells (my_sentence cell n ai) → P ai' x) →
  (∀ x s, s ∈ knowledge ai → x ∈ cells s → P ai x →
          (∀ cell n, c = CallAddKnowledge cell n → x ≠ cell) → P ai' x) →
  Forall (λ s, ∀ x, x ∈ cells s → P ai x) (knowledge ai) →
  @run_call R c ai = Returned ai' →
  Forall (λ s, ∀ x, x ∈ cells s → P ai' x) (knowledge ai').
Proof.
  intros Hobs Hkeep Hk. rewrite run_call_eq. intros [= <-].
  rewrite Forall_forall in Hk.
  destruct c as [cell|cell|cell n| |]; simpl in *.
  - apply Forall_forall. intros s' (s & -> & Hs)%list_elem_of_fmap x Hx.
    destruct (forget_cells_subseteq cell s) as [Hsub _].
    apply (Hkeep x s Hs); [set_solver | apply (Hk s Hs); set_solver | discriminate].
  - apply Forall_forall. intros s' (s & -> & Hs)%list_elem_of_fmap x Hx.
    destruct (forget_cells_subseteq cell s) as [_ Hsub].
    apply (Hkeep x s Hs); [set_solver | apply (Hk s Hs); set_solver | discriminate].
  - apply (@added_sentences_from R (λ x, P (@added R cell n ai) x)).
    + apply Forall_forall. intros s' (s & -> & Hs)%list_elem_of_fmap x Hx.
      destruct (forget_safe_cells cell s) as [Hcells _]. rewrite Hcells in Hx.
      apply (Hkeep x s Hs); [set_solver | apply (Hk s Hs); set_solver |].
      intros cell' n' [= <- <-]. set_solver.
    + intros x Hx. by eapply Hobs.
  - apply Forall_forall. intros s Hs x Hx.
    apply (Hkeep x s Hs); [done | by apply (Hk s Hs) | discriminate].
  - apply Forall_forall. intros s Hs x Hx.
    apply (Hkeep x s Hs); [done | by apply (Hk s Hs) | discriminate].
Qed.

Lemma run_call_moves (R : Runtime) (c : call) (ai ai' : MinesweeperAI) :
  @run_call R c ai = Returned ai' →
  moves_made ai' = match c with
                   | CallAddKnowledge cell _ => {[cell]} ∪ moves_made ai
                   | _ => moves_made ai
                   end
  ∧ match c with
    | CallAddKnowledge cell _ => {[cell]} ∪ safes ai ⊆ safes ai'
    | _ => safes ai ⊆ safes ai'
    end.
Proof.
  rewrite run_call_eq. intros [= <-].
  destruct c as [cell|cell|cell n| |]; simpl; try (split; set_solver).
  destruct (@added_frame R cell n ai) as (_ & _ & Hmv & _ & _ & Hs). done.
Qed.

(** X11. After any sequence of calls on a new knowledge base, every
    probed cell is in [safes] ([moves_made] is a subset of [safes]) and no
    sentence of [knowledge] mentions a probed cell. *)
Theorem probed_cells_stay_settled (h w : Z) (tr : list (Runtime * call)) :
  ∃ ai,
    run_calls tr (AI_init h w) = Returned ai
    ∧ moves_made ai ⊆ safes ai
    ∧ Forall (λ s, cells s ## moves_made ai) (knowledge ai).
Proof.
  destruct (run_calls_invariant
              (λ ai, moves_made ai ⊆ safes ai
                     ∧ Forall (λ s, ∀ x, x ∈ cells s → x ∉ moves_made ai) (knowledge ai)))
    with (tr := tr) (ai := AI_init h w) as (ai & Hrun & Hsub & Hk).
  - intros R c ai ai' [Hsub Hk] Hrun.
    destruct (run_call_moves R c ai ai' Hrun) as [Hmv Hs]. split.
    + rewrite Hmv. destruct c; set_solver.
    + apply (run_call_sentences (λ ai x, x ∉ moves_made ai) R c ai ai'); try done.
      * intros cell n x -> Hx. rewrite Hmv. unfold my_sentence in Hx. simpl in Hx.
        pose proof (neighbours_not_self (height ai) (width ai) cell). set_solver.
      * intros x s _ _ Hx Hcell. rewrite Hmv.
        destruct c as [cell|cell|cell n| |]; try done.
        specialize (Hcell cell n eq_refl). set_solver.
  - simpl. split; [done | apply Forall_nil_2].
  - exists ai. repeat split; done.
Qed.

(** X12. After any sequence of calls on a new knowledge base of [h] rows
    and [w] columns, the size of the board is still [h] by [w] and the
    sentences of [knowledge] mention cells of the board only. *)
Theorem sentences_stay_on_board (h w : Z) (tr : list (Runtime * call)) :
  ∃ ai,
    run_calls tr (AI_init h w) = Returned ai
    ∧ height ai = h ∧ width ai = w
    ∧ Forall (λ s, ∀ c, c ∈ cells s → on_board h w c) (knowledge ai).
Proof.
  destruct (run_calls_invariant
              (λ ai, (height ai = h ∧ width ai = w)
                     ∧ Forall (λ s, ∀ x, x ∈ cells s → on_board h w x) (knowledge ai)))
    with (tr := tr) (ai := AI_init h w) as (ai & Hrun & [Hh Hw] & Hk).
  - intros R c ai ai' [[Hh Hw] Hk] Hrun.
    destruct (@run_call_grows R c ai) as (ai'' & Hrun' & Hh' & Hw' & _).
    assert (ai'' = ai') as -> by congruence.
    split; [split; congruence|].
    apply (run_call_sentences (λ _ x, on_board h w x) R c ai ai'); try done.
    intros cell n x _ Hx. unfold my_sentence in Hx. simpl in Hx.
    apply elem_of_difference in Hx as [Hx _].
    apply elem_of_neighbours in Hx. unfold on_board. rewrite <- Hh, <- Hw. tauto.
  - simpl. repeat split. apply Forall_nil_2.
  - by exists ai.
Qed.

(** X13. When every call of a sequence on a new knowledge base agrees
    with one board (its mines are [M]), every sentence of [knowledge]
    counts exactly the mines among its cells, so its count lies between 0
    and the number of its cells, and a cell that [make_safe_move] returns
    holds no mine. *)
Theorem consistent_play_is_safe (M : gset Cell) (h w : Z) (tr : list (Runtime * call)) :
  Forall (λ rc, agrees M h w rc.2) tr →
  ∃ ai,
    run_calls tr (AI_init h w) = Returned ai
    ∧ Forall (λ s, count s = Z.of_nat (size (cells s ∩ M))
                   ∧ 0 ≤ count s ≤ Z.of_nat (size (cells s))) (knowledge ai)
    ∧ ∀ (R : Runtime) c, (@make_safe_move R ai).1 = Some c → c ∉ M.
Proof.
  intros Htr.
  destruct (run_calls_sound M tr (AI_init h w)) as (ai & Hrun & Hm & Hs & Hk);
    [done | repeat split; simpl; [set_solver | set_solver | done] |].
  exists ai. split; [done|]. split.
  - eapply Forall_impl; [apply Hk|]. intros s Hs'. unfold sentence_true in Hs'.
    split; [done|].
    assert (size (cells s ∩ M) ≤ size (cells s))%nat
      by (apply subseteq_size; set_solver).
    lia.
  - intros R c Hc. unfold make_safe_move in Hc. cbn [fst] in Hc.
    apply find_some in Hc as [Hin _].
    apply list_elem_of_In, (@elem_of_iter_cells R) in Hin. set_solver.
Qed.

Lemma consistent_play_is_safe_witness :
  ∃ ai,
    run_calls [(plain_runtime, CallAddKnowledge (0, 0) 0)] (AI_init 1 3) = Returned ai
    ∧ Forall (λ s, count s = Z.of_nat (size (cells s ∩ {[(0, 2)]}))
                   ∧ 0 ≤ count s ≤ Z.of_nat (size (cells s))) (knowledge ai)
    ∧ ∀ (R : Runtime) c, (@make_safe_move R ai).1 = Some c → c ∉ ({[(0, 2)]} : gset Cell).
Proof.
  apply (consistent_play_is_safe {[(0, 2)]} 1 3
           [(plain_runtime, CallAddKnowledge (0, 0) 0)]).
  apply Forall_cons. split; [|apply Forall_nil_2].
  simpl. split; by vm_compute.
Defined.

(** ** The game board *)

Lemma for_each_opt_app {A S : Type} (body : S → A → option S) (s : S) (l1 l2 : list A) :
  for_each_opt body s (l1 ++ l2) = (for_each_opt body s l1 ≫= λ s', for_each_opt body s' l2).
Proof.
  revert s. induction l1 as [|x l1 IH]; intros s; simpl; [done|].
  destruct (body s x) as [s'|]; simpl; [apply IH | done].
Qed.

(** Two nested loops are one loop over the pairs. *)
Lemma for_each_opt_pairs {S : Type} (body : S → Cell → option S) (li lj : list Z) (s : S) :
  for_each_opt (λ s i, for_each_opt (λ s j, body s (i, j)) s lj) s li
  = for_each_opt body s (i ← li; j ← lj; [(i, j)]).
Proof.
  revert s. induction li as [|i li IH]; intros s; [done|].
  change ((i :: li) ≫= λ i, lj ≫= λ j, [(i, j)])
    with ((lj ≫= λ j, [(i, j)]) ++ (li ≫= λ i, lj ≫= λ j, [(i, j)])).
  rewrite for_each_opt_app. cbn [for_each_opt].
  assert (∀ s, for_each_opt (λ s j, body s (i, j)) s lj
               = for_each_opt body s (lj ≫= λ j, [(i, j)])) as ->.
  { clear. induction lj as [|j lj IHj]; intros s; [done|]. simpl.
    destruct (body s (i, j)); simpl; [apply IHj | done]. }
  destruct (for_each_opt body s _); simpl; [apply IH | done].
Qed.

Lemma range_three (a : Z) : range_from (a - 1) (a + 2) = [a - 1; a; a + 1].
Proof.
  unfold range_from. replace (a + 2 - (a - 1)) with 3 by lia.
  unfold seqZ. simpl. repeat (apply (f_equal2 (@cons Z)); [lia|]). done.
Qed.

Lemma nearby_mines_square (g : Minesweeper) (cell : Cell) :
  nearby_mines g cell = for_each_opt (count_neighbour g cell) 0 (square cell).
Proof.
  unfold nearby_mines. rewrite !range_three.
  apply (for_each_opt_pairs (count_neighbour g cell)).
Qed.

Lemma count_neighbour_eq (g : Minesweeper) (cell c : Cell) (cnt : Z) :
  board_ok g →
  count_neighbour g cell cnt c =
  Some (if decide ((0 ≤ c.1 < g_height g) ∧ (0 ≤ c.2 < g_width g) ∧ c ≠ cell)
        then (if decide (c ∈ g_mines g) then cnt + 1 else cnt) else cnt).
Proof.
  intros (_ & _ & Hsync). unfold count_neighbour.
  destruct (decide (c = cell)) as [->|Hne].
  - rewrite decide_False; [done | tauto].
  - destruct (decide (0 ≤ c.1 < g_height g)) as [Hi|Hi];
      [rewrite (bool_decide_eq_true_2 _ Hi) | rewrite (bool_decide_eq_false_2 _ Hi)];
      simpl; [|rewrite decide_False; [done | tauto]].
    destruct (decide (0 ≤ c.2 < g_width g)) as [Hj|Hj];
      [rewrite (bool_decide_eq_true_2 _ Hj) | rewrite (bool_decide_eq_false_2 _ Hj)];
      simpl; [|rewrite decide_False; [done | tauto]].
    rewrite decide_True by done.
    destruct (Hsync c) as (b & Hb & Hiff); [done|].
    unfold is_mine in Hb.
    destruct (list_get (board g) c.1) as [row|]; simpl in *; [|done].
    rewrite Hb. simpl. destruct b.
    + rewrite decide_True; [done | by apply Hiff].
    + rewrite decide_False; [done|]. intros Hin. apply Hiff in Hin. done.
Qed.

Lemma count_scan (g : Minesweeper) (cell : Cell) (l : list Cell) :
  board_ok g → NoDup l → ∀ cnt : Z,
  for_each_opt (count_neighbour g cell) cnt l =
  Some (cnt + Z.of_nat (size
          ((list_to_set
              (filter (λ c, (0 ≤ c.1 < g_height g) ∧ (0 ≤ c.2 < g_width g) ∧ c ≠ cell) l)
            : gset Cell) ∩ g_mines g))).
Proof.
  intros Hg. induction 1 as [|c l Hc Hnd IH]; intros cnt; cbn [for_each_opt].
  - simpl. f_equal.
    replace ((∅ : gset Cell) ∩ g_mines g) with (∅ : gset Cell) by set_solver.
    rewrite size_empty. lia.
  - rewrite count_neighbour_eq by done. cbn [mbind option_bind]. rewrite filter_cons.
    set (ok := λ c : Cell, (0 ≤ c.1 < g_height g) ∧ (0 ≤ c.2 < g_width g) ∧ c ≠ cell) in *.
    change (decide ((0 ≤ c.1 < g_height g) ∧ (0 ≤ c.2 < g_width g) ∧ c ≠ cell))
      with (decide (ok c)).
    destruct (decide (ok c)) as [Hok|Hok]; [|apply IH].
    assert (c ∉ (list_to_set (filter ok l) : gset Cell)) as Hfresh.
    { rewrite elem_of_list_to_set, list_elem_of_filter. tauto. }
    destruct (decide (c ∈ g_mines g)) as [Hm|Hm]; rewrite IH, list_to_set_cons.
    + rewrite size_inter_insert_in by done. f_equal. lia.
    + by rewrite inter_insert_out.
Qed.

Lemma nearby_mines_eq (g : Minesweeper) (cell : Cell) :
  board_ok g →
  nearby_mines g cell
  = Some (Z.of_nat (size (neighbours (g_height g) (g_width g) cell ∩ g_mines g))).
Proof.
  intros Hg. rewrite nearby_mines_square.
  rewrite (count_scan g cell (square cell) Hg (NoDup_square cell)). done.
Qed.

Lemma list_get_in_range {A : Type} (l : list A) (i : Z) :
  0 ≤ i → list_get l i = l !! Z.to_nat i.
Proof. intros Hi. unfold list_get. by rewrite decide_True. Qed.

Lemma list_set_in_range {A : Type} (l : list A) (i : Z) (x : A) :
  0 ≤ i < Z.of_nat (length l) → list_set l i x = Some (<[Z.to_nat i := x]> l).
Proof. intros Hi. unfold list_set. rewrite !decide_True by lia. done. Qed.

Lemma is_mine_lookup (g : Minesweeper) (c : Cell) :
  0 ≤ c.1 → 0 ≤ c.2 →
  is_mine g c = (board g !! Z.to_nat c.1 ≫= λ row, row !! Z.to_nat c.2).
Proof.
  intros Hi Hj. unfold is_mine. rewrite list_get_in_range by done.
  destruct (board g !! Z.to_nat c.1); simpl; [|done]. by apply list_get_in_range.
Qed.

Lemma empty_board_lookup (h w : Z) (i j : nat) :
  (i < Z.to_nat h)%nat → (j < Z.to_nat w)%nat →
  (empty_board h w !! i ≫= λ row, row !! j) = Some false.
Proof.
  intros Hi Hj. unfold empty_board, range.
  rewrite list_lookup_fmap, (lookup_seqZ_lt _ _ i) by lia. simpl.
  rewrite list_lookup_fmap, (lookup_seqZ_lt _ _ j) by lia. done.
Qed.

(** The board before the mines are placed has the right size and no mine. *)
Lemma empty_board_ok (h w : Z) (found : gset Cell) :
  board_ok (mkGame h w ∅ (empty_board h w) found).
Proof.
  unfold board_ok. simpl. split; [|split].
  - unfold empty_board, range. by rewrite length_fmap, length_seqZ.
  - unfold empty_board, range. apply Forall_fmap, Forall_forall. intros i _. simpl.
    by rewrite length_fmap, length_seqZ.
  - intros c [Hi Hj]. exists false. split; [|set_solver].
    rewrite is_mine_lookup by lia. simpl. apply empty_board_lookup; lia.
Qed.

Lemma is_mine_on_board (g : Minesweeper) (c : Cell) :
  board_ok g → on_board (g_height g) (g_width g) c →
  is_mine g c = Some (bool_decide (c ∈ g_mines g)).
Proof.
  intros (_ & _ & Hsync) Hc. destruct (Hsync c Hc) as (b & -> & Hiff). f_equal.
  destruct b.
  - symmetry. apply bool_decide_eq_true. by apply Hiff.
  - symmetry. apply bool_decide_eq_false. intros Hin. apply Hiff in Hin. done.
Qed.

(** X14. On a board of the right size whose [True] entries are the cells
    of [self.mines], [nearby_mines(cell)] returns (no index is out of
    range) the number of mines among the neighbours of the cell on the
    board, the cell itself not counted. *)
Theorem nearby_mines_counts_neighbours (g : Minesweeper) (cell : Cell) :
  board_ok g →
  nearby_mines g cell
  = Some (Z.of_nat (size (neighbours (g_height g) (g_width g) cell ∩ g_mines g))).
Proof. apply nearby_mines_eq. Qed.

(** X16. A game and its player.  On a board of the right size whose
    [True] entries are its mines, when every [add_knowledge] call reports
    a cell of the board for which [is_mine] is [False], together with what
    [nearby_mines] returns for it, no call raises and a cell that
    [make_safe_move] then returns is not a mine. *)
Theorem honest_play_is_safe (g : Minesweeper) (probes : list (Runtime * (Cell * Z))) :
  board_ok g →
  Forall (λ p, on_board (g_height g) (g_width g) p.2.1
               ∧ is_mine g p.2.1 = Some false
               ∧ nearby_mines g p.2.1 = Some p.2.2) probes →
  ∃ ai,
    run_calls (map (λ p, (p.1, CallAddKnowledge p.2.1 p.2.2)) probes)
              (AI_init (g_height g) (g_width g)) = Returned ai
    ∧ ∀ (R : Runtime) c, (@make_safe_move R ai).1 = Some c → c ∉ g_mines g.
Proof.
  intros Hg Hprobes.
  destruct (run_calls_sound (g_mines g)
              (map (λ p, (p.1, CallAddKnowledge p.2.1 p.2.2)) probes)
              (AI_init (g_height g) (g_width g)))
    as (ai & Hrun & Hm & Hs & Hk).
  - simpl. apply Forall_fmap. eapply Forall_impl; [apply Hprobes|].
    intros [R [c n]] (Hc & Hmine & Hnear). simpl in *. split.
    + rewrite (is_mine_on_board g c Hg Hc) in Hmine.
      injection Hmine as Hmine. by apply bool_decide_eq_false in Hmine.
    + rewrite (nearby_mines_eq g c Hg) in Hnear. congruence.
  - repeat split; simpl; [set_solver | set_solver | done].
  - exists ai. split; [done|]. intros R c Hc.
    unfold make_safe_move in Hc. cbn [fst] in Hc.
    apply find_some in Hc as [Hin _].
    apply list_elem_of_In, (@elem_of_iter_cells R) in Hin.
    set_solver.
Qed.

(** ** The scan order of [make_random_move] *)

Lemma seqZ_sorted (m n : Z) : StronglySorted Z.lt (seqZ m n).
Proof.
  destruct (decide (n ≤ 0)) as [Hn|Hn]; [rewrite seqZ_nil by done; constructor|].
  rewrite <- (Z2Nat.id n) by lia. generalize (Z.to_nat n). clear. intros k.
  revert m. induction k as [|k IH]; intros m; [constructor|].
  rewrite seqZ_cons by lia. constructor.
  - replace (Z.pred (Z.of_nat (S k))) with (Z.of_nat k) by lia. apply IH.
  - apply Forall_forall. intros y Hy%elem_of_seqZ. lia.
Qed.

Lemma find_first_sorted (f : Z → bool) (l : list Z) (x : Z) :
  StronglySorted Z.lt l → List.find f l = Some x →
  ∀ y, y ∈ l → f y = true → x ≤ y.
Proof.
  induction 1 as [|a l Hl IH Ha]; intros Hfind y Hy Hfy; [done|].
  simpl in Hfind. rewrite Forall_forall in Ha.
  destruct (f a) eqn:Hfa.
  - injection Hfind as <-. apply elem_of_cons in Hy as [->|Hy]; [lia|].
    specialize (Ha y Hy). lia.
  - apply elem_of_cons in Hy as [->|Hy]; [congruence|]. by apply IH.
Qed.

Lemma find_app_first {A : Type} (f : A → bool) (l1 l2 : list A) :
  List.find f (l1 ++ l2)
  = match List.find f l1 with Some x => Some x | None => List.find f l2 end.
Proof.
  induction l1 as [|a l1 IH]; simpl; [done|]. by destruct (f a).
Qed.

Lemma find_in_row (f : Cell → bool) (i : Z) (cols : list Z) :
  List.find f (cols ≫= λ j, [(i, j)]) = pair i <$> List.find (λ j, f (i, j)) cols.
Proof.
  induction cols as [|j cols IH]; [done|].
  change ((j :: cols) ≫= λ j, [(i, j)]) with ((i, j) :: (cols ≫= λ j, [(i, j)])).
  simpl. by destruct (f (i, j)).
Qed.

(** The first pair that passes a test, in a scan row by row of sorted
    rows and columns, comes before every other pair that passes it. *)
Lemma find_first_pair (f : Cell → bool) (rows cols : list Z) (c : Cell) :
  StronglySorted Z.lt rows → StronglySorted Z.lt cols →
  List.find f (i ← rows; j ← cols; [(i, j)]) = Some c →
  ∀ c', c'.1 ∈ rows → c'.2 ∈ cols → f c' = true →
        c.1 < c'.1 ∨ (c.1 = c'.1 ∧ c.2 ≤ c'.2).
Proof.
  intros Hrows Hcols. induction Hrows as [|i rows Hrows IH Hi]; intros Hfind c' H1 H2 Hf.
  - by apply elem_of_nil in H1.
  - change ((i :: rows) ≫= λ i, cols ≫= λ j, [(i, j)])
      with ((cols ≫= λ j, [(i, j)]) ++ (rows ≫= λ i, cols ≫= λ j, [(i, j)])) in Hfind.
    rewrite find_app_first, find_in_row in Hfind.
    rewrite Forall_forall in Hi.
    destruct (List.find (λ j, f (i, j)) cols) as [j|] eqn:Hrow; simpl in Hfind.
    + injection Hfind as <-. simpl.
      apply elem_of_cons in H1 as [Heq|H1]; [|left; by apply Hi].
      right. split; [done|].
      apply (find_first_sorted (λ j, f (i, j)) cols j Hcols Hrow); [done|].
      destruct c' as [i' j']. simpl in *. by subst.
    + apply elem_of_cons in H1 as [Heq|H1]; [|by apply IH].
      exfalso. assert (f (i, c'.2) = false) as Hno.
      { apply (find_none _ _ Hrow). by apply list_elem_of_In. }
      destruct c' as [i' j']. simpl in *. subst. congruence.
Qed.

(** X17. The cell that [make_random_move] returns is the first that
    passes its two tests in the scan row by row, left to right: every
    other cell of the board that is neither in [moves_made] nor in [mines]
    is in a later row, or in the same row and not to the left. *)
Theorem make_random_move_first (ai : MinesweeperAI) (c c' : Cell) :
  (make_random_move ai).1 = Some c →
  on_board (height ai) (width ai) c' → c' ∉ moves_made ai → c' ∉ mines ai →
  c.1 < c'.1 ∨ (c.1 = c'.1 ∧ c.2 ≤ c'.2).
Proof.
  unfold make_random_move, range, on_board. cbn [fst]. intros Hfind [Hi Hj] Hmv Hm.
  eapply (find_first_pair _ _ _ c (seqZ_sorted 0 (height ai)) (seqZ_sorted 0 (width ai))
            Hfind c').
  - apply elem_of_seqZ. lia.
  - apply elem_of_seqZ. lia.
  - apply andb_true_iff. split; by apply bool_decide_eq_true.
Qed.

Lemma make_random_move_first_witness :
  (0 : Z) < 1 ∨ ((0 : Z) = 1 ∧ (1 : Z) ≤ 0).
Proof.
  apply (make_random_move_first
           (mkAI 2 2 {[(0, 0)]} ∅ {[(0, 0)]} []) (0, 1) (1, 0)).
  - reflexivity.
  - by vm_compute.
  - by vm_compute.
  - by vm_compute.
Defined.

(** ** Indices of [is_mine] *)

Lemma list_get_None {A : Type} (l : list A) (i : Z) :
  list_get l i = None ↔ ¬ (- Z.of_nat (length l) ≤ i < Z.of_nat (length l)).
Proof.
  unfold list_get. destruct (decide (0 ≤ i)) as [Hi|Hi].
  - rewrite lookup_ge_None. lia.
  - destruct (decide (- Z.of_nat (length l) ≤ i)) as [Hlow|Hlow].
    + rewrite lookup_ge_None. lia.
    + split; [lia | done].
Qed.

Lemma list_get_wrap {A : Type} (l : list A) (i : Z) :
  - Z.of_nat (length l) ≤ i < 0 → list_get l i = list_get l (i + Z.of_nat (length l)).
Proof.
  intros Hi. unfold list_get.
  rewrite (decide_False (P := 0 ≤ i)) by lia.
  rewrite (decide_True (P := - Z.of_nat (length l) ≤ i)) by lia.
  rewrite (decide_True (P := 0 ≤ i + Z.of_nat (length l))) by lia.
  f_equal. lia.
Qed.

Lemma list_get_elem {A : Type} (l : list A) (i : Z) (x : A) :
  list_get l i = Some x → x ∈ l.
Proof.
  unfold list_get. repeat case_decide; try done; apply list_elem_of_lookup_2.
Qed.

(** X18. [is_mine(cell)] on a board of [height] rows of [width] entries
    follows Python's indexing: it raises [IndexError] exactly when the
    row index is outside [-height, height) or the column index outside
    [-width, width), and a negative index in range reads the row, or the
    column, counted from the end. *)
Theorem is_mine_index (g : Minesweeper) (c : Cell) :
  board_ok g →
  (is_mine g c = None ↔
   ¬ ((- g_height g ≤ c.1 < g_height g) ∧ (- g_width g ≤ c.2 < g_width g)))
  ∧ (- g_height g ≤ c.1 < 0 → is_mine g c = is_mine g (c.1 + g_height g, c.2))
  ∧ (- g_width g ≤ c.2 < 0 → is_mine g c = is_mine g (c.1, c.2 + g_width g)).
Proof.
  intros (Hlen & Hrows & _). rewrite Forall_forall in Hrows.
  unfold is_mine. simpl. split; [|split].
  - destruct (list_get (board g) c.1) as [row|] eqn:Hrow; simpl.
    + assert (length row = Z.to_nat (g_width g)) as Hrowlen
        by (by eapply Hrows, list_get_elem).
      assert (¬ ¬ (- Z.of_nat (length (board g)) ≤ c.1 < Z.of_nat (length (board g))))
        as Hin by (rewrite <- list_get_None; congruence).
      rewrite list_get_None. lia.
    + apply list_get_None in Hrow. split; [lia | done].
  - intros Hi. rewrite (list_get_wrap (board g) c.1) by lia.
    replace (c.1 + Z.of_nat (length (board g))) with (c.1 + g_height g) by lia. done.
  - intros Hj. destruct (list_get (board g) c.1) as [row|] eqn:Hrow; simpl; [|done].
    assert (length row = Z.to_nat (g_width g)) as Hrowlen
      by (by eapply Hrows, list_get_elem).
    rewrite (list_get_wrap row c.2) by lia.
    replace (c.2 + Z.of_nat (length row)) with (c.2 + g_width g) by lia. done.
Qed.

Lemma is_mine_index_witness :
  (is_mine (mkGame 1 2 ∅ (empty_board 1 2) ∅) (-1, -2) = None ↔
   ¬ ((- 1 ≤ -1 < 1) ∧ (- 2 ≤ -2 < 2)))
  ∧ (- 1 ≤ -1 < 0 →
     is_mine (mkGame 1 2 ∅ (empty_board 1 2) ∅) (-1, -2)
     = is_mine (mkGame 1 2 ∅ (empty_board 1 2) ∅) (-1 + 1, -2))
  ∧ (- 2 ≤ -2 < 0 →
     is_mine (mkGame 1 2 ∅ (empty_board 1 2) ∅) (-1, -2)
     = is_mine (mkGame 1 2 ∅ (empty_board 1 2) ∅) (-1, -2 + 2)).
Proof.
  apply (is_mine_index (mkGame 1 2 ∅ (empty_board 1 2) ∅) (-1, -2)).
  apply empty_board_ok.
Defined.

(** ** Building the board *)

(** One round of the placing loop, for a pair on the board: nothing is
    raised, the pair is a mine afterwards, and the board is as good as
    before. *)
Lemma place_mine_ok (h w : Z) (ms found : gset Cell) (bd : list (list bool)) (ij : Cell) :
  board_ok (mkGame h w ms bd found) → on_board h w ij →
  ∃ bd', place_mine ms bd ij = Some ({[ij]} ∪ ms, bd')
         ∧ board_ok (mkGame h w ({[ij]} ∪ ms) bd' found).
Proof.
  intros Hg [Hi Hj]. pose proof Hg as (Hlen & Hrows & Hsync). simpl in *.
  unfold place_mine. rewrite list_get_in_range by lia.
  destruct (bd !! Z.to_nat ij.1) as [row|] eqn:Hrow;
    [|apply lookup_ge_None in Hrow; lia].
  simpl.
  assert (length row = Z.to_nat w) as Hrowlen.
  { rewrite Forall_forall in Hrows. apply Hrows. by eapply list_elem_of_lookup_2. }
  rewrite list_get_in_range by lia.
  destruct (row !! Z.to_nat ij.2) as [b|] eqn:Hb;
    [|apply lookup_ge_None in Hb; lia].
  simpl. destruct b.
  - assert (ij ∈ ms) as Hin.
    { destruct (Hsync ij) as (b & Hb' & Hiff); [done|].
      rewrite is_mine_lookup in Hb' by lia. simpl in Hb'. rewrite Hrow in Hb'.
      simpl in Hb'. apply Hiff. congruence. }
    assert ({[ij]} ∪ ms = ms) as -> by set_solver. by exists bd.
  - rewrite list_set_in_range by lia. simpl.
    rewrite list_set_in_range by lia. simpl.
    eexists. split; [done|].
    unfold board_ok. simpl. split; [|split].
    + by rewrite length_insert.
    + apply Forall_insert; [done|]. by rewrite length_insert.
    + intros c Hc. destruct (Hsync c Hc) as (b & Hb' & Hiff).
      destruct Hc as [Hci Hcj].
      rewrite is_mine_lookup in Hb' |- * by lia. simpl in *.
      destruct (decide (Z.to_nat c.1 = Z.to_nat ij.1)) as [Heq|Hne].
      * rewrite Heq in Hb' |- *. rewrite Hrow in Hb'. simpl in Hb'.
        rewrite list_lookup_insert_eq by lia. simpl.
        destruct (decide (Z.to_nat c.2 = Z.to_nat ij.2)) as [Heq'|Hne'].
        -- rewrite Heq'. rewrite list_lookup_insert_eq by lia.
           exists true. split; [done|]. split; [|done]. intros _.
           assert (c = ij) as ->; [|set_solver].
           destruct c, ij. simpl in *. f_equal; lia.
        -- rewrite list_lookup_insert_ne by done.
           exists b. split; [done|]. rewrite Hiff.
           assert (c ≠ ij) by (intros ->; done). set_solver.
      * rewrite list_lookup_insert_ne by done.
        exists b. split; [done|]. rewrite Hiff.
        assert (c ≠ ij) by (intros ->; done). set_solver.
Qed.

(** How the placing loop ends, for pairs on the board. *)
Lemma place_mines_ends (h w n : Z) (draws : list Cell) :
  Forall (on_board h w) draws →
  ∀ (ms : gset Cell) (bd : list (list bool)),
  board_ok (mkGame h w ms bd ∅) →
  match place_mines h w n draws ms bd with
  | Ended (ms', bd') =>
      board_ok (mkGame h w ms' bd' ∅) ∧ Z.of_nat (size ms') = n
      ∧ ∃ k, ms' = list_to_set (take k draws) ∪ ms
  | ValueError => (h ≤ 0 ∨ w ≤ 0) ∧ Z.of_nat (size ms) ≠ n
  | IndexError => False
  | OutOfDraws =>
      0 < h ∧ 0 < w
      ∧ ∀ k, Z.of_nat (size (list_to_set (take k draws) ∪ ms)) ≠ n
  end.
Proof.
  induction 1 as [|ij draws Hij Hdraws IH]; intros ms bd Hg; cbn [place_mines].
  - destruct (decide (Z.of_nat (size ms) = n)) as [Hn|Hn].
    { split; [done|]. split; [done|]. exists 0%nat. simpl. set_solver. }
    destruct (decide (h ≤ 0)); [split; [by left | done]|].
    destruct (decide (w ≤ 0)); [split; [by right | done]|].
    split; [lia|]. split; [lia|]. intros k. rewrite take_nil. simpl.
    by rewrite (left_id_L ∅ (∪)).
  - destruct (decide (Z.of_nat (size ms) = n)) as [Hn|Hn].
    { split; [done|]. split; [done|]. exists 0%nat. simpl. set_solver. }
    destruct (decide (h ≤ 0)); [split; [by left | done]|].
    destruct (decide (w ≤ 0)); [split; [by right | done]|].
    destruct (place_mine_ok h w ms ∅ bd ij Hg Hij) as (bd' & -> & Hg').
    specialize (IH ({[ij]} ∪ ms) bd' Hg').
    destruct (place_mines h w n draws ({[ij]} ∪ ms) bd') as [[ms' bd'']| | |].
    + destruct IH as (Hg'' & Hsize & k & ->). split; [done|]. split; [done|].
      exists (S k). simpl. set_solver.
    + destruct IH as [Hhw _]. split; [done | done].
    + done.
    + destruct IH as (Hh & Hw & Hk). split; [done|]. split; [done|].
      intros [|k]; simpl.
      * by rewrite (left_id_L ∅ (∪)).
      * specialize (Hk k).
        replace ({[ij]} ∪ list_to_set (take k draws) ∪ ms)
          with (list_to_set (take k draws) ∪ ({[ij]} ∪ ms)) by set_solver.
        done.
Qed.

(** X15. [Minesweeper.__init__(height, width, mines)], when the pairs
    that the random generator returns are cells of the board, never
    raises [IndexError].  When it returns, the board has [height] rows of
    [width] entries, there are exactly [mines] mines, they are the pairs
    of a prefix of those the generator returned, [is_mine] of a cell of
    the board tells whether the cell is one of them, and no mine is found
    yet.  It raises [ValueError] only on a board without rows or without
    columns when [mines] is not 0; and it has not returned when the pairs
    are used up only if no prefix of them holds exactly [mines] cells. *)
Theorem Minesweeper_init_places_mines (height width mines : Z) (draws : list Cell) :
  Forall (on_board height width) draws →
  match Minesweeper_init height width mines draws with
  | Ended g =>
      g_height g = height ∧ g_width g = width ∧ mines_found g = ∅
      ∧ Z.of_nat (size (g_mines g)) = mines
      ∧ (∃ k, g_mines g = list_to_set (take k draws))
      ∧ length (board g) = Z.to_nat height
      ∧ Forall (λ row, length row = Z.to_nat width) (board g)
      ∧ ∀ c, on_board height width c → is_mine g c = Some (bool_decide (c ∈ g_mines g))
  | ValueError => mines ≠ 0 ∧ (height ≤ 0 ∨ width ≤ 0)
  | IndexError => False
  | OutOfDraws =>
      0 < height ∧ 0 < width
      ∧ ∀ k, Z.of_nat (size (list_to_set (take k draws) : gset Cell)) ≠ mines
  end.
Proof.
  intros Hdraws. unfold Minesweeper_init.
  pose proof (place_mines_ends height width mines draws Hdraws ∅
                (empty_board height width) (empty_board_ok height width ∅)) as Hend.
  destruct (place_mines height width mines draws ∅ (empty_board height width))
    as [[ms bd]| | |].
  - destruct Hend as (Hg & Hsize & k & Hk). simpl.
    pose proof Hg as (Hlen & Hrows & _). simpl in Hlen, Hrows.
    split; [done|]. split; [done|]. split; [done|]. split; [done|].
    split; [exists k; rewrite Hk; by rewrite (right_id_L ∅ (∪))|].
    split; [done|]. split; [done|].
    intros c Hc. by apply (is_mine_on_board (mkGame height width ms bd ∅)).
  - destruct Hend as [Hhw Hn]. split; [|done].
    rewrite size_empty in Hn. simpl in Hn. lia.
  - done.
  - destruct Hend as (Hh & Hw & Hk). split; [done|]. split; [done|].
    intros k. specialize (Hk k). by rewrite (right_id_L ∅ (∪)) in Hk.
Qed.

Lemma Minesweeper_init_places_mines_witness :
  match Minesweeper_init 1 2 2 [(0, 1); (0, 1); (0, 0)] with
  | Ended g =>
      g_height g = 1 ∧ g_width g = 2 ∧ mines_found g = ∅
      ∧ Z.of_nat (size (g_mines g)) = 2
      ∧ (∃ k, g_mines g = list_to_set (take k [(0, 1); (0, 1); (0, 0)]))
      ∧ length (board g) = Z.to_nat 1
      ∧ Forall (λ row, length row = Z.to_nat 2) (board g)
      ∧ ∀ c, on_board 1 2 c → is_mine g c = Some (bool_decide (c ∈ g_mines g))
  | ValueError => 2 ≠ 0 ∧ (1 ≤ 0 ∨ 2 ≤ 0)
  | IndexError => False
  | OutOfDraws =>
      0 < 1 ∧ 0 < 2
      ∧ ∀ k, Z.of_nat (size (list_to_set (take k [(0, 1); (0, 1); (0, 0)]) : gset Cell)) ≠ 2
  end.
Proof.
  apply (Minesweeper_init_places_mines 1 2 2 [(0, 1); (0, 1); (0, 0)]).
  repeat (apply Forall_cons; split; [by vm_compute|]). apply Forall_nil_2.
Defined.

(** A board of one row and three columns with its mine at [(0,2)]. *)
Lemma board_ok_one_mine :
  board_ok (mkGame 1 3 {[(0, 2)]} [[false; false; true]] ∅).
Proof.
  unfold board_ok. simpl. split; [done|]. split; [by apply Forall_singleton|].
  intros [i j] [Hi Hj]. simpl in *.
  assert (i = 0) as -> by lia.
  assert (j = 0 ∨ j = 1 ∨ j = 2) as [-> | [-> | ->]] by lia.
  - exists false. split; [done|]. split; [done|]. intros Hin.
    apply elem_of_singleton in Hin. done.
  - exists false. split; [done|]. split; [done|]. intros Hin.
    apply elem_of_singleton in Hin. done.
  - exists true. split; [done|]. split; [|done]. intros _. by apply elem_of_singleton.
Qed.

Lemma nearby_mines_counts_neighbours_witness :
  nearby_mines (mkGame 1 3 {[(0, 2)]} [[false; false; true]] ∅) (0, 1)
  = Some (Z.of_nat (size (neighbours 1 3 (0, 1) ∩ {[(0, 2)]})))
  ∧ Z.of_nat (size (neighbours 1 3 (0, 1) ∩ {[(0, 2)]})) = 1.
Proof.
  split; [|reflexivity].
  exact (nearby_mines_counts_neighbours
           (mkGame 1 3 {[(0, 2)]} [[false; false; true]] ∅) (0, 1)
           board_ok_one_mine).
Defined.

Lemma honest_play_is_safe_witness :
  ∃ ai,
    run_calls [(plain_runtime, CallAddKnowledge (0, 0) 0)] (AI_init 1 3) = Returned ai
    ∧ (@make_safe_move plain_runtime ai).1 = Some (0, 1)
    ∧ ∀ (R : Runtime) c, (@make_safe_move R ai).1 = Some c →
                         c ∉ ({[(0, 2)]} : gset Cell).
Proof.
  destruct (honest_play_is_safe (mkGame 1 3 {[(0, 2)]} [[false; false; true]] ∅)
              [(plain_runtime, ((0, 0), 0))])
    as (ai & Hrun & Hsafe).
  - apply board_ok_one_mine.
  - apply Forall_cons. split; [|apply Forall_nil_2].
    simpl. split; [by vm_compute|]. split; reflexivity.
  - exists ai. split; [exact Hrun|]. split; [|exact Hsafe].
    simpl in Hrun. vm_compute in Hrun. injection Hrun as <-. reflexivity.
Defined.
